(** * The animated counter of [counter.jsx]: model and verification

    [Counter] is a React function component with two state cells ([count],
    [isVisible]), three effects (viewport observer, interval timer, restart
    on re-entry) and a formatter for the number it renders.

    Numbers.  A JavaScript number is modelled by its mathematical value, a
    canonical rational ([Qc]): values are finite and arithmetic is exact.
    The rounding of binary64 arithmetic, [NaN], the infinities and the sign
    of zero are therefore not represented; where JavaScript has [-0] (for
    instance [Math.round] of a value in [[-0.5, 0)], which
    [toLocaleString] shows as "-0") the model has [0].  [Object.is] and
    [===] on numbers are Leibniz equality.  The library functions that the
    component calls ([Math.max], [Math.ceil], [Math.round],
    [Number.prototype.toFixed], [parseFloat],
    [Number.prototype.toLocaleString("en-US")], [String.prototype.replace])
    are defined from ECMA-262 and ECMA-402 on these values, strings
    included; a result that would be [NaN] is [None].

    The model and the program compute the same number where binary64 is
    exact: on whole numbers up to [2^53] whose quotients leave no
    remainder, and in the digits that [toFixed] writes for a binary64 value
    below [10^21] and [toLocaleString] for a whole number up to [2^53].
    Elsewhere a sum or a quotient of the program carries a rounding error,
    below [10^-6] for magnitudes up to [3 * 10^9], which can move it across
    a tie of [toFixed(2)].  A statement whose conclusion depends on the
    value of such a result therefore either restricts the numbers to the
    exact case ([whole], [binary64]) or bounds their magnitude ([within])
    and leaves 0.01 between the result and the exact sum, which covers the
    rounding to two decimals (0.005) and that error.  Statements on the
    structure of a run (which effect runs, which interval is registered)
    need no such bound.

    React.  An event (interval tick, observer callback, new props, unmount)
    is handled atomically: the state update, the render and the effects of
    the commit, with the renders that the effects cause by setting state,
    all happen before the next event.  The host's table of live intervals
    is part of the state, next to the cleanup closure of the timer effect,
    so that an interval which is not cleared stays visible in the model. *)

From Stdlib Require Import ZArith QArith Qcanon Qround Qabs Qpower Lia Lqa.
From Stdlib Require Import String Ascii DecimalString DecimalN DecimalPos DecimalFacts.
From stdpp Require Import base option numbers strings gmap.

Local Open Scope Qc_scope.

(** ** JavaScript built-ins used by the component *)

Module JS.

(** [Math.ceil], [Math.round] (ties toward +∞) and [Math.max] of two
    arguments. *)
Definition Math_ceil (x : Qc) : Qc := Q2Qc (inject_Z (Qceiling x)).

Definition Math_round (x : Qc) : Qc :=
  Q2Qc (inject_Z (Qfloor (x + Q2Qc (1 # 2)))).

Definition Math_max (a b : Qc) : Qc := if decide (a ≤ b) then b else a.

(** [pow10 k] is ten to the [k]. *)
Definition pow10 (k : nat) : N := 10 ^ N.of_nat k.

(** The integer [n] for which [n - a] is as close to zero as possible,
    the larger one on a tie, for [a >= 0]. *)
Definition nearest (a : Qc) : N := Z.to_N (Qfloor (a + Q2Qc (1 # 2))).

Definition scale (k : nat) (a : Qc) : Qc :=
  a * Q2Qc (inject_Z (Z.of_N (pow10 k))).

Definition Qcabs (x : Qc) : Qc := if decide (x < 0) then - x else x.

(** Decimal digits of a natural number, most significant first; ["0"]
    for zero. *)
Definition digits (n : N) : string := NilEmpty.string_of_uint (N.to_uint n).

Definition digitCon (d : N) : Decimal.uint -> Decimal.uint :=
  match d with
  | 0 => Decimal.D0 | 1 => Decimal.D1 | 2 => Decimal.D2 | 3 => Decimal.D3
  | 4 => Decimal.D4 | 5 => Decimal.D5 | 6 => Decimal.D6 | 7 => Decimal.D7
  | 8 => Decimal.D8 | _ => Decimal.D9
  end%N.

(** The last [k] digits of [r], with leading zeros. *)
Fixpoint lastDigits (k : nat) (r : N) : Decimal.uint :=
  match k with
  | O => Decimal.Nil
  | S k' => digitCon ((r / pow10 k') mod 10) (lastDigits k' r)
  end.

Definition fraction (k : nat) (r : N) : string :=
  NilEmpty.string_of_uint (lastDigits k r).

(** Removes the zeros at the end of a digit string. *)
Fixpoint stripZeros (s : string) : string :=
  match s with
  | EmptyString => EmptyString
  | String c r =>
      match stripZeros r with
      | EmptyString => if Ascii.eqb c "0" then EmptyString else String c EmptyString
      | r' => String c r'
      end
  end.

(** [Number::toString] for a value [a >= 10^21]: the digits [s] without
    their final zeros, a point after the first one, and the exponent.
    A binary64 value of that size is an integer.  [Number::toString]
    writes the shortest digits that read back as the same binary64 value;
    they are the digits of [a] without the final zeros for the values at
    which this development evaluates it ([10^21], [1.5 * 10^21]), not for
    every binary64 value. *)
Definition exponential (a : Qc) : string :=
  let ds := digits (Z.to_N (Qfloor a)) in
  let e := digits (N.of_nat (String.length ds - 1)) in
  match stripZeros ds with
  | EmptyString => "0"
  | String c EmptyString => String c EmptyString +:+ "e+" +:+ e
  | String c r => String c EmptyString +:+ "." +:+ r +:+ "e+" +:+ e
  end.

Definition limit21 : Qc := Q2Qc (inject_Z (Z.of_N (pow10 21))).

(** [Number.prototype.toFixed(f)] of the mathematical value [x].  The
    program applies it to binary64 values, and the standard rounds the
    exact value of that number: the digits are those of the program when
    [x] is the binary64 value itself, not the decimal it was written as
    (0.35 is not one: the value next to it is below 0.35 and gives "0.3"). *)
Definition toFixed (f : nat) (x : Qc) : string :=
  let s := if decide (x < 0) then "-" else "" in
  let a := Qcabs x in
  if decide (limit21 ≤ a) then s +:+ exponential a
  else
    let n := nearest (scale f a) in
    match f with
    | O => s +:+ digits n
    | _ => s +:+ digits (n / pow10 f) +:+ "." +:+ fraction f (n mod pow10 f)
    end.

(** The number that [toFixed(f)] writes: [x] to [f] decimals, ties away
    from zero. *)
Definition rounded (f : nat) (x : Qc) : Qc :=
  let v := Q2Qc (inject_Z (Z.of_N (nearest (scale f (Qcabs x))))
                 / inject_Z (Z.of_N (pow10 f))) in
  if decide (x < 0) then - v else v.

(** Reading a decimal literal. *)
Definition digitOf (c : ascii) : option (Decimal.uint -> Decimal.uint) :=
  if Ascii.eqb c "0" then Some Decimal.D0
  else if Ascii.eqb c "1" then Some Decimal.D1
  else if Ascii.eqb c "2" then Some Decimal.D2
  else if Ascii.eqb c "3" then Some Decimal.D3
  else if Ascii.eqb c "4" then Some Decimal.D4
  else if Ascii.eqb c "5" then Some Decimal.D5
  else if Ascii.eqb c "6" then Some Decimal.D6
  else if Ascii.eqb c "7" then Some Decimal.D7
  else if Ascii.eqb c "8" then Some Decimal.D8
  else if Ascii.eqb c "9" then Some Decimal.D9
  else None.

(** The longest prefix of digits, and what follows it. *)
Fixpoint spanDigits (s : string) : Decimal.uint * string :=
  match s with
  | EmptyString => (Decimal.Nil, EmptyString)
  | String c r =>
      match digitOf c with
      | Some d => let '(u, rest) := spanDigits r in (d u, rest)
      | None => (Decimal.Nil, s)
      end
  end.

Definition isWhiteSpace (c : ascii) : bool :=
  let n := nat_of_ascii c in
  (n =? 32)%nat || ((9 <=? n)%nat && (n <=? 13)%nat).

Fixpoint trimStart (s : string) : string :=
  match s with
  | String c r => if isWhiteSpace c then trimStart r else s
  | EmptyString => EmptyString
  end.

Definition readSign (s : string) : bool * string :=
  match s with
  | String c r =>
      if Ascii.eqb c "-" then (true, r)
      else if Ascii.eqb c "+" then (false, r) else (false, s)
  | EmptyString => (false, s)
  end.

(** The exponent part [e], [e+] or [e-] followed by digits; it is left
    out of the literal when no digit follows. *)
Definition readExponent (s : string) : Z :=
  match s with
  | String c r =>
      if Ascii.eqb c "e" || Ascii.eqb c "E" then
        let '(neg, r1) := readSign r in
        let '(u, _) := spanDigits r1 in
        match u with
        | Decimal.Nil => 0%Z
        | _ => if neg then (- Z.of_N (N.of_uint u))%Z else Z.of_N (N.of_uint u)
        end
      else 0%Z
  | EmptyString => 0%Z
  end.

Definition noDigit (u : Decimal.uint) : bool :=
  match u with Decimal.Nil => true | _ => false end.

Definition ofDigits (u : Decimal.uint) : Q := inject_Z (Z.of_N (N.of_uint u)).

Definition tenTo (z : Z) : Q := Qpower (10 # 1) z.

(** [parseFloat]: the value of the longest prefix that is a decimal
    literal; [None] where JavaScript gives [NaN] or an infinity. *)
Definition parseFloat (s : string) : option Qc :=
  let '(neg, s1) := readSign (trimStart s) in
  let '(ip, s2) := spanDigits s1 in
  let '(fp, s3) :=
    match s2 with
    | String c r => if Ascii.eqb c "." then spanDigits r else (Decimal.Nil, s2)
    | EmptyString => (Decimal.Nil, s2)
    end in
  if noDigit ip && noDigit fp then None
  else
    let m := (ofDigits ip + ofDigits fp / tenTo (Z.of_nat (Decimal.nb_digits fp)))%Q in
    let v := (m * tenTo (readExponent s3))%Q in
    Some (Q2Qc (if neg then Qopp v else v)).

(** Digits in groups of three, separated by commas. *)
Fixpoint groupDigits (s : string) : string :=
  match s with
  | EmptyString => EmptyString
  | String c r =>
      if (0 <? String.length r)%nat && (String.length r mod 3 =? 0)%nat
      then String c ("," +:+ groupDigits r)
      else String c (groupDigits r)
  end.

(** [Number.prototype.toLocaleString("en-US")]: at most three fraction
    digits, ties away from zero, grouped integer digits.  The digits are
    those of the mathematical value; an engine writes the same ones for a
    whole number up to [2^53] and for a binary64 value of at most three
    decimals (1234.5), rounds a larger whole number to 17 significant
    digits, and writes "-0" for the negative zero. *)
Definition toLocaleString (x : Qc) : string :=
  let s := if decide (x < 0) then "-" else "" in
  let n := nearest (scale 3 (Qcabs x)) in
  let fr := stripZeros (fraction 3 (n mod pow10 3)) in
  s +:+ groupDigits (digits (n / pow10 3))
    +:+ match fr with EmptyString => "" | _ => "." +:+ fr end.

(** [s.replace(/c/g, d)] for single characters [c] and [d]. *)
Fixpoint replaceAll (c d : ascii) (s : string) : string :=
  match s with
  | EmptyString => EmptyString
  | String a r => String (if Ascii.eqb a c then d else a) (replaceAll c d r)
  end.

End JS.

Import JS.

(** ** The component [Counter] *)

(** *** Props *)

Inductive IncrementType := integer | decimal.
Inductive SeparatorType := comma | period | none.

Record Font := { fontFamily : string; fontWeight : Z; systemFont : bool }.

Record Props := {
  start : Qc;
  end_ : Qc;
  gapSize : Qc;
  prefixText : string;
  suffixText : string;
  prefixFont : Font;
  suffixFont : Font;
  prefixColor : string;
  suffixColor : string;
  loop : bool;
  decimalSeparatorType : SeparatorType;
  textSize : Qc;
  selectedFont : Font;
  textColor : string;
  startOnViewport : bool;
  restartOnViewport : bool;
  incrementType : IncrementType;
  duration : Qc
}.

#[global] Instance IncrementType_eq_dec : EqDecision IncrementType.
Proof. solve_decision. Defined.
#[global] Instance SeparatorType_eq_dec : EqDecision SeparatorType.
Proof. solve_decision. Defined.

(** *** State

    [count] and [isVisible] are the two [useState] cells.  [intervals] is
    the host's table of live intervals ([setInterval] adds an entry under a
    fresh id, [clearInterval] deletes it); an entry holds the delay and the
    callback, the closure [updateCount] with the values of [start], [end]
    and [duration] of the render that created it.
    [cleanup] is the cleanup function that the last run of the timer effect
    returned: [Some intervalId] stands for [() => clearInterval(intervalId)],
    [None] for no cleanup. *)

Record Closure := { startVar : Qc; endVar : Qc; durationVar : Qc }.

Record Interval := { callback : Closure; delay : Qc }.

Record State := {
  props : Props;
  count : Qc;
  isVisible : bool;
  mounted : bool;
  cleanup : option nat;
  intervals : gmap nat Interval;
  nextId : nat
}.

Definition withCount (c : Qc) (s : State) : State :=
  {| props := props s; count := c; isVisible := isVisible s;
     mounted := mounted s; cleanup := cleanup s; intervals := intervals s;
     nextId := nextId s |}.

Definition withVisible (b : bool) (s : State) : State :=
  {| props := props s; count := count s; isVisible := b;
     mounted := mounted s; cleanup := cleanup s; intervals := intervals s;
     nextId := nextId s |}.

Definition withProps (p : Props) (s : State) : State :=
  {| props := p; count := count s; isVisible := isVisible s;
     mounted := mounted s; cleanup := cleanup s; intervals := intervals s;
     nextId := nextId s |}.

(** [setInterval(f, d)] returns the new id; [clearInterval(id)]. *)
Definition setInterval (f : Closure) (d : Qc) (s : State) : nat * State :=
  (nextId s,
   {| props := props s; count := count s; isVisible := isVisible s;
      mounted := mounted s; cleanup := cleanup s;
      intervals := <[nextId s := {| callback := f; delay := d |}]> (intervals s);
      nextId := S (nextId s) |}).

Definition clearInterval (id : nat) (s : State) : State :=
  {| props := props s; count := count s; isVisible := isVisible s;
     mounted := mounted s; cleanup := cleanup s;
     intervals := delete id (intervals s); nextId := nextId s |}.

Definition withCleanup (c : option nat) (s : State) : State :=
  {| props := props s; count := count s; isVisible := isVisible s;
     mounted := mounted s; cleanup := c; intervals := intervals s;
     nextId := nextId s |}.

(** *** The timer effect (lines 56-88) *)

(** The updater that [updateCount] passes to [setCount], as a function of
    the variables [start], [end] and [duration] it closes over.  The
    quotient, the sum and the rounding to two decimals are those of the
    mathematical values: binary64 gives the same number where its
    operations are exact (whole numbers up to [2^53], a quotient without
    remainder); elsewhere its sum carries a rounding error, which can fall
    on the other side of a tie of [toFixed(2)], so that the two results
    differ by 0.01. *)
Definition updateCount (start end_ duration : Qc) (prevCount : Qc) : option Qc :=
  let totalSteps := Math_max 1 (Math_ceil (duration / Q2Qc 100)) in
  let increment := (end_ - start) / totalSteps in
  nextCount ← parseFloat (toFixed 2 (prevCount + increment));
  Some (if decide (end_ ≤ nextCount) then end_ else nextCount).

Definition call (f : Closure) : Qc -> option Qc :=
  updateCount (startVar f) (endVar f) (durationVar f).

(** The body of the effect: the new state and the [setCount] calls it made. *)
Definition timerEffect (s : State) : State * list Qc :=
  let p := props s in
  if isVisible s || (negb (startOnViewport p) && bool_decide (start p ≠ end_ p)) then
    let '(intervalId, s') :=
      setInterval {| startVar := start p; endVar := end_ p;
                     durationVar := duration p |}
        (duration p / Math_max 1 (Math_ceil (duration p / Q2Qc 100))) s in
    (withCleanup (Some intervalId) s', [])
  else if startOnViewport p && isVisible s then
    (withCleanup None s, [start p])
  else (withCleanup None s, []).

Definition runCleanup (s : State) : State :=
  match cleanup s with
  | Some intervalId => withCleanup None (clearInterval intervalId s)
  | None => s
  end.

(** Its dependency list, compared between two renders. *)
Definition timerDeps (p : Props) (c : Qc) (v : bool) :=
  (c, start p, end_ p, loop p, v, startOnViewport p, incrementType p, duration p).

(** *** The restart effect (lines 90-94) *)

Definition restartEffect (s : State) : list Qc :=
  if restartOnViewport (props s) && isVisible s then [start (props s)] else [].

Definition restartDeps (p : Props) (v : bool) :=
  (v, restartOnViewport p, start p).

(** *** Commit

    After a render, the effects whose dependencies changed run: first the
    cleanup of the timer effect, then the bodies in the order of the source.
    The [setCount] calls of the bodies are applied in order; when the state
    is a different value the component renders again, and in that render
    [count], a dependency of the timer effect only, has changed.  The
    model answers [None] after [updateLimit] nested renders, the bound that
    React puts on nested updates; two are always enough here (lemma
    [commit_eq]). *)

Definition updateLimit : nat := 50.

Fixpoint commit (fuel : nat) (timerChanged restartChanged : bool) (s : State)
  : option State :=
  match fuel with
  | O => None
  | S fuel' =>
      let s1 := if timerChanged then runCleanup s else s in
      let '(s2, q1) := if timerChanged then timerEffect s1 else (s1, []) in
      let q2 := if restartChanged then restartEffect s2 else [] in
      let c := foldl (fun _ v => v) (count s2) (q1 ++ q2) in
      if decide (c = count s2) then Some s2
      else commit fuel' true false (withCount c s2)
  end.

(** *** Mount, events and runs *)

(** The first render has [count = start] ([useState(start)]) and
    [isVisible = false]; every effect runs after it. *)
Definition mount (p : Props) : option State :=
  commit updateLimit true true
    {| props := p; count := start p; isVisible := false; mounted := true;
       cleanup := None; intervals := ∅; nextId := 0 |}.

(** [Tick id]: the host calls the callback of interval [id]; nothing
    happens when [id] is not in the table.
    [Intersect b]: the callback of the [IntersectionObserver] that the first
    effect (lines 39-54) creates at the mount, with [isIntersecting = b].
    [Render p]: the parent renders the component with props [p].
    [Unmount]: the component is removed. *)
Inductive Event :=
| Tick (intervalId : nat)
| Intersect (isIntersecting : bool)
| Render (p : Props)
| Unmount.

(** A state update to the value the cell already holds ([Object.is]) causes
    no render, so no effect runs; an unmounted component ignores updates.
    After a render, an effect runs when a value of its dependency list has
    changed; on unmount the cleanup of the timer effect runs. *)
Definition step (e : Event) (s : State) : option State :=
  match e with
  | Tick intervalId =>
      match intervals s !! intervalId with
      | Some iv =>
          if mounted s then
            c ← call (callback iv) (count s);
            if decide (c = count s) then Some s
            else commit updateLimit true false (withCount c s)
          else Some s
      | None => Some s
      end
  | Intersect b =>
      if mounted s then
        if decide (b = isVisible s) then Some s
        else commit updateLimit true true (withVisible b s)
      else Some s
  | Render p =>
      if mounted s then
        commit updateLimit
          (bool_decide (timerDeps p (count s) (isVisible s)
                        ≠ timerDeps (props s) (count s) (isVisible s)))
          (bool_decide (restartDeps p (isVisible s)
                        ≠ restartDeps (props s) (isVisible s)))
          (withProps p s)
      else Some s
  | Unmount =>
      if mounted s then
        let s' := runCleanup s in
        Some {| props := props s'; count := count s'; isVisible := isVisible s';
                mounted := false; cleanup := cleanup s';
                intervals := intervals s'; nextId := nextId s' |}
      else Some s
  end.

Fixpoint run (es : list Event) (s : State) : option State :=
  match es with
  | [] => Some s
  | e :: es' => s' ← step e s; run es' s'
  end.

(** The states after each event of a run, the first one included. *)
Fixpoint history (es : list Event) (s : State) : option (list State) :=
  match es with
  | [] => Some [s]
  | e :: es' => s' ← step e s; h ← history es' s'; Some (s :: h)
  end.

(** *** Formatter and render (lines 96-141) *)

Definition formatNumber (decimalSeparatorType : SeparatorType)
    (incrementType : IncrementType) (number : Qc) : string :=
  match decimalSeparatorType with
  | comma => toLocaleString number
  | period => replaceAll "," "." (toLocaleString number)
  | none => toFixed (if decide (incrementType = integer) then 0 else 1) number
  end.

Record SpanStyle := {
  spanFontFamily : string; spanFontWeight : Z; spanColor : string }.

Record Span := { spanStyle : option SpanStyle; children : string }.

(** The [motion.div] with its three spans; lengths are in [px]. *)
Record Element := {
  display : string;
  justifyContent : string;
  alignItems : string;
  gap : Qc;
  flexDirection : string;
  fontSize : Qc;
  divFontFamily : string;
  divFontWeight : Z;
  color : string;
  spans : list Span
}.

Definition render (p : Props) (count : Qc) : Element :=
  {| display := "flex";
     justifyContent := "center";
     alignItems := "center";
     gap := gapSize p;
     flexDirection := "row";
     fontSize := textSize p;
     divFontFamily := fontFamily (selectedFont p);
     divFontWeight := fontWeight (selectedFont p);
     color := textColor p;
     spans :=
       [ {| spanStyle := Some {| spanFontFamily := fontFamily (prefixFont p);
                                 spanFontWeight := fontWeight (prefixFont p);
                                 spanColor := prefixColor p |};
            children := prefixText p |};
         {| spanStyle := None;
            children := formatNumber (decimalSeparatorType p) (incrementType p)
                          (Math_round count) |};
         {| spanStyle := Some {| spanFontFamily := fontFamily (suffixFont p);
                                 spanFontWeight := fontWeight (suffixFont p);
                                 spanColor := suffixColor p |};
            children := suffixText p |} ] |}.

(** What the screen shows in a state. *)
Definition view (s : State) : Element := render (props s) (count s).

(** [Counter.defaultProps], completed by the defaults of the property
    controls for the props it leaves out. *)
Definition inter : Font :=
  {| fontFamily := "Inter"; fontWeight := 500; systemFont := true |}.

Definition defaultProps : Props :=
  {| start := 0; end_ := Q2Qc 100; gapSize := Q2Qc 4;
     prefixText := ""; suffixText := "";
     prefixFont := inter; suffixFont := inter;
     prefixColor := ""; suffixColor := "";
     loop := false; decimalSeparatorType := comma; textSize := Q2Qc 36;
     selectedFont := inter; textColor := "#D3D3D3";
     startOnViewport := false; restartOnViewport := false;
     incrementType := integer; duration := Q2Qc 2000 |}.

Definition config (a b d : Z) (viewport replay : bool) : Props :=
  {| start := Q2Qc (inject_Z a); end_ := Q2Qc (inject_Z b); gapSize := Q2Qc 4;
     prefixText := ""; suffixText := "";
     prefixFont := inter; suffixFont := inter;
     prefixColor := ""; suffixColor := "";
     loop := false; decimalSeparatorType := comma; textSize := Q2Qc 36;
     selectedFont := inter; textColor := "#D3D3D3";
     startOnViewport := viewport; restartOnViewport := replay;
     incrementType := integer; duration := Q2Qc (inject_Z d) |}.

(** The states of a run that starts with the mount. *)
Definition trace (p : Props) (es : list Event) : option (list State) :=
  s ← mount p; history es s.

(** ** Notions used in the statements *)

(** The condition under which the timer effect starts an interval. *)
Definition gate (p : Props) (visible : bool) : bool :=
  visible || (negb (startOnViewport p) && bool_decide (start p ≠ end_ p)).

(** The two constants of [updateCount] (lines 58-59). *)
Definition totalSteps (duration : Qc) : Qc :=
  Math_max 1 (Math_ceil (duration / Q2Qc 100)).

Definition increment (p : Props) : Qc :=
  (end_ p - start p) / totalSteps (duration p).

(** The interval that the timer effect registers under props [p]. *)
Definition timerOf (p : Props) : Interval :=
  {| callback := {| startVar := start p; endVar := end_ p;
                    durationVar := duration p |};
     delay := duration p / totalSteps (duration p) |}.

(** One run of the timer effect: cleanup of the previous run, then the body. *)
Definition refresh (s : State) : State := (timerEffect (runCleanup s)).1.

(** The interval table holds exactly what the last run of the timer effect
    left: its interval when the gate was open, nothing otherwise. *)
Definition owned (s : State) : Prop :=
  match cleanup s with
  | Some intervalId =>
      intervals s = {[ intervalId := timerOf (props s) ]}
      ∧ (intervalId < nextId s)%nat ∧ mounted s = true
      ∧ gate (props s) (isVisible s) = true
  | None =>
      intervals s = ∅
      ∧ (mounted s = true -> gate (props s) (isVisible s) = false)
  end.

(** The states a mounted component goes through. *)
Inductive reachable : State -> Prop :=
| reach_mount p s : mount p = Some s -> reachable s
| reach_step e s s' : reachable s -> step e s = Some s' -> reachable s'.

(** A number of at most two decimals. *)
Definition twoDecimals (x : Qc) : Prop := exists z : Z, x = Q2Qc (z # 100).

(** Events that keep the props: all but [Render]. *)
Definition keepsProps (e : Event) : bool :=
  match e with Render _ => false | _ => true end.

(** The text of the number span. *)
Definition numberText (el : Element) : string :=
  match spans el with
  | [_; number; _] => children number
  | _ => ""
  end.

(** The same props and events with another value of [loop]. *)
Definition setLoop (b : bool) (p : Props) : Props :=
  {| start := start p; end_ := end_ p; gapSize := gapSize p;
     prefixText := prefixText p; suffixText := suffixText p;
     prefixFont := prefixFont p; suffixFont := suffixFont p;
     prefixColor := prefixColor p; suffixColor := suffixColor p;
     loop := b; decimalSeparatorType := decimalSeparatorType p;
     textSize := textSize p; selectedFont := selectedFont p;
     textColor := textColor p; startOnViewport := startOnViewport p;
     restartOnViewport := restartOnViewport p;
     incrementType := incrementType p; duration := duration p |}.

Definition onLoop (b : bool) (e : Event) : Event :=
  match e with Render p => Render (setLoop b p) | _ => e end.


(** ** Auxiliary notions of the proofs *)

(** The input does not go on with a digit. *)
Definition noDigitAhead (s : string) : Prop :=
  match s with String c _ => digitOf c = None | EmptyString => True end.

(** A digit at the head of a literal: it is read as a digit, and is neither
    white space nor a sign. *)
Definition leads (c : ascii) : Prop :=
  isWhiteSpace c = false /\ Ascii.eqb c "-" = false /\ Ascii.eqb c "+" = false
  /\ exists d, digitOf c = Some d /\ forall u, noDigit (d u) = false.

(** What one run of the timer effect needs of the state it starts from. *)
Definition loose (s : State) : Prop :=
  mounted s = true ∧
  match cleanup s with
  | Some intervalId =>
      (exists iv, intervals s = {[ intervalId := iv ]}) ∧ (intervalId < nextId s)%nat
  | None => intervals s = ∅
  end.

(** The value of [count] after the [setCount] calls of a commit. *)
Definition restartValue (restartChanged : bool) (s : State) : Qc :=
  if restartChanged && restartOnViewport (props s) && isVisible s
  then start (props s) else count s.

(** What a commit needs: the timer effect will run again, or the table
    already fits the props. *)
Definition ready (timerChanged : bool) (s : State) : Prop :=
  if timerChanged then loose s else owned s.

(** The values of [count] along a run, as fractions. *)
Definition countsOf (p : Props) (es : list Event) : option (list Q) :=
  List.map (fun s => this (count s)) <$> trace p es.

(** *** Sample props and states *)


(** The props [p] with [start = end = a]. *)
Definition withEnds (a : Q) (p : Props) : Props :=
  {| start := Q2Qc a; end_ := Q2Qc a; gapSize := gapSize p;
     prefixText := prefixText p; suffixText := suffixText p;
     prefixFont := prefixFont p; suffixFont := suffixFont p;
     prefixColor := prefixColor p; suffixColor := suffixColor p;
     loop := loop p; decimalSeparatorType := decimalSeparatorType p;
     textSize := textSize p; selectedFont := selectedFont p;
     textColor := textColor p; startOnViewport := startOnViewport p;
     restartOnViewport := restartOnViewport p;
     incrementType := incrementType p; duration := duration p |}.

(** [config 0 10 1000] with both viewport flags: visible, two ticks, hidden. *)
Definition sampleC6 : State :=
  Eval vm_compute in
    default {| props := defaultProps; count := 0; isVisible := false;
               mounted := false; cleanup := None; intervals := ∅; nextId := 0 |}
      (s0 ← mount (config 0 10 1000 true true);
       run [Intersect true; Tick 0; Tick 1; Intersect false]%nat s0).

(** [config 0 10 200] after the two ticks that take [count] to [end]. *)
Definition sampleC7 : State :=
  {| props := config 0 10 200 false false; count := Q2Qc 10; isVisible := false;
     mounted := true; cleanup := Some 2%nat;
     intervals := {[ 2%nat := timerOf (config 0 10 200 false false) ]};
     nextId := 3 |}.

(** The props [p] with another separator and increment type. *)
Definition withFormat (sep : SeparatorType) (it : IncrementType) (p : Props) : Props :=
  {| start := start p; end_ := end_ p; gapSize := gapSize p;
     prefixText := prefixText p; suffixText := suffixText p;
     prefixFont := prefixFont p; suffixFont := suffixFont p;
     prefixColor := prefixColor p; suffixColor := suffixColor p;
     loop := loop p; decimalSeparatorType := sep;
     textSize := textSize p; selectedFont := selectedFont p;
     textColor := textColor p; startOnViewport := startOnViewport p;
     restartOnViewport := restartOnViewport p;
     incrementType := it; duration := duration p |}.

(** The state with another value of [loop] in its props. *)
Definition relabel (b : bool) (s : State) : State :=
  withProps (setLoop b (props s)) s.

(** ** Notions used in the further properties *)

(** The host fires the interval that the cleanup of the timer effect
    holds, if there is one; [ticks k] does so [k] times in a row. *)
Definition tickLive (s : State) : option State :=
  match cleanup s with
  | Some intervalId => step (Tick intervalId) s
  | None => Some s
  end.

Fixpoint ticks (k : nat) (s : State) : option State :=
  match k with
  | O => Some s
  | S k' => s' ← tickLive s; ticks k' s'
  end.

(** [c] occurs in [s]. *)
Fixpoint occurs (c : ascii) (s : string) : bool :=
  match s with
  | EmptyString => false
  | String a r => Ascii.eqb a c || occurs c r
  end.

(** [s] without the characters [c]. *)
Fixpoint without (c : ascii) (s : string) : string :=
  match s with
  | EmptyString => EmptyString
  | String a r => if Ascii.eqb a c then without c r else String a (without c r)
  end.

(** The value of [count] after [k] steps that need no rounding. *)
Definition afterSteps (p : Props) (k : nat) : Qc :=
  if decide (Q2Qc (inject_Z (Z.of_nat k)) ≤ totalSteps (duration p))
  then start p + Q2Qc (inject_Z (Z.of_nat k)) * increment p
  else end_ p.

(** A numeral with a leading digit other than zero. *)
Definition headed (d : Decimal.uint) : Prop :=
  match d with Decimal.Nil | Decimal.D0 _ => False | _ => True end.

(** A state of a component that is not mounted. *)
Definition unmounted : State :=
  {| props := defaultProps; count := 0; isVisible := false;
     mounted := false; cleanup := None; intervals := ∅; nextId := 0 |}.

(** [config 10 0 1000] just after the mount, and after its first tick. *)
Definition sampleDown : State :=
  Eval vm_compute in default unmounted (mount (config 10 0 1000 false false)).

Definition sampleBelow : State :=
  Eval vm_compute in default unmounted (step (Tick 0) sampleDown).

(** ** Whole numbers, magnitudes and binary64 values *)

(** A whole number, and the numbers of magnitude at most [b]. *)
Definition whole (z : Z) : Qc := Q2Qc (inject_Z z).

Definition within (b : Z) (x : Qc) : Prop := - whole b ≤ x ∧ x ≤ whole b.


(** * Proofs *)

(** ** The built-ins *)

Module JSFacts.

(** *** Digits written and read *)

Lemma spanDigits_stop s : noDigitAhead s -> spanDigits s = (Decimal.Nil, s).
Proof. destruct s as [|c r]; simpl; [done|]. by intros ->. Qed.

Lemma spanDigits_print d rest :
  noDigitAhead rest ->
  spanDigits (NilEmpty.string_of_uint d +:+ rest) = (d, rest).
Proof.
  intros Hr. induction d as [|d IH|d IH|d IH|d IH|d IH|d IH|d IH|d IH|d IH|d IH];
    simpl; [by apply spanDigits_stop|..]; by rewrite IH.
Qed.

Lemma of_uint_digitCon d u :
  (d < 10)%N ->
  N.of_uint (digitCon d u) = (d * 10 ^ Unsigned.usize u + N.of_uint u)%N.
Proof.
  intros Hd. unfold N.of_uint. rewrite !Unsigned.of_uint_alt.
  assert (Hc : forall f k, (forall v, Unsigned.of_lu (f v) = (k + 10 * Unsigned.of_lu v)%N) ->
            (forall v w, Decimal.revapp (f v) w = Decimal.revapp v (f w)) ->
            Unsigned.of_lu (Decimal.rev (f u))
            = (k * 10 ^ Unsigned.usize u + Unsigned.of_lu (Decimal.rev u))%N).
  { intros f k Hf Hrev. unfold Decimal.rev. rewrite Hrev, Unsigned.of_lu_revapp.
    rewrite Hf. simpl. unfold Decimal.rev. lia. }
  assert (Hcases : (d = 0 \/ d = 1 \/ d = 2 \/ d = 3 \/ d = 4 \/ d = 5 \/ d = 6
                   \/ d = 7 \/ d = 8 \/ d = 9)%N) by lia.
  destruct Hcases as [-> | [-> | [-> | [-> | [-> | [-> | [-> | [-> | [-> | ->] ] ] ] ] ] ] ] ];
    [ apply (Hc Decimal.D0 0%N) | apply (Hc Decimal.D1 1%N)
    | apply (Hc Decimal.D2 2%N) | apply (Hc Decimal.D3 3%N)
    | apply (Hc Decimal.D4 4%N) | apply (Hc Decimal.D5 5%N)
    | apply (Hc Decimal.D6 6%N) | apply (Hc Decimal.D7 7%N)
    | apply (Hc Decimal.D8 8%N) | apply (Hc Decimal.D9 9%N) ]; done.
Qed.

Lemma usize_digitCon d u : Unsigned.usize (digitCon d u) = N.succ (Unsigned.usize u).
Proof. destruct d as [|[[[[]|[]|]|[[]|[]|]|]|[[[]|[]|]|[[]|[]|]|]|]]; done. Qed.

Lemma nb_digits_digitCon d u : Decimal.nb_digits (digitCon d u) = S (Decimal.nb_digits u).
Proof. destruct d as [|[[[[]|[]|]|[[]|[]|]|]|[[[]|[]|]|[[]|[]|]|]|]]; done. Qed.

Lemma usize_lastDigits k r : Unsigned.usize (lastDigits k r) = N.of_nat k.
Proof. induction k; simpl; [done|]. rewrite usize_digitCon, IHk. lia. Qed.

Lemma nb_digits_lastDigits k r : Decimal.nb_digits (lastDigits k r) = k.
Proof. induction k; simpl; [done|]. by rewrite nb_digits_digitCon, IHk. Qed.

Lemma of_uint_lastDigits k r : N.of_uint (lastDigits k r) = (r mod pow10 k)%N.
Proof.
  induction k as [|k IH]; simpl lastDigits.
  - unfold pow10. simpl. by rewrite N.mod_1_r.
  - rewrite of_uint_digitCon by (apply N.mod_lt; lia).
    rewrite usize_lastDigits, IH. unfold pow10.
    rewrite Nat2N.inj_succ, N.pow_succ_r'.
    set (b := (10 ^ N.of_nat k)%N).
    assert (b <> 0)%N by (apply N.pow_nonzero; lia).
    rewrite (N.mul_comm 10 b), N.Div0.mod_mul_r. lia.
Qed.

Lemma spanDigits_print_end d : spanDigits (NilEmpty.string_of_uint d) = (d, EmptyString).
Proof.
  induction d as [|d IH|d IH|d IH|d IH|d IH|d IH|d IH|d IH|d IH|d IH];
    simpl; [done|..]; by rewrite IH.
Qed.

Lemma to_uint_head n :
  exists c r, digits n = String c r /\ isWhiteSpace c = false
              /\ Ascii.eqb c "-" = false /\ Ascii.eqb c "+" = false.
Proof.
  unfold digits. destruct n as [|p]; [by eexists _, _|].
  pose proof (DecimalPos.Unsigned.to_uint_nonnil p) as Hn. simpl N.to_uint.
  destruct (Pos.to_uint p); [done|..]; by eexists _, _.
Qed.

Lemma noDigit_to_uint n : noDigit (N.to_uint n) = false.
Proof.
  destruct n as [|p]; [done|].
  pose proof (DecimalPos.Unsigned.to_uint_nonnil p) as Hn. simpl N.to_uint.
  by destruct (Pos.to_uint p).
Qed.

(** *** From [Qc] to [Q] *)
Lemma this_Q2Qc q : (this (Q2Qc q) == q)%Q.
Proof. simpl. apply Qred_correct. Qed.

Lemma Q2Qc_eq q r : (q == r)%Q -> Q2Qc q = Q2Qc r.
Proof. intros H. apply Qc_is_canon. by rewrite !this_Q2Qc. Qed.

Lemma Qcopp_Q2Qc q : - Q2Qc q = Q2Qc (- q)%Q.
Proof. apply Qc_is_canon. unfold Qcopp. by rewrite !this_Q2Qc. Qed.

Ltac qc :=
  unfold Qcle, Qclt, Qcminus, Qcplus, Qcopp, Qcmult in *;
  repeat match goal with
    | H : context [this (Q2Qc ?q)] |- _ => rewrite (this_Q2Qc q) in H
    | |- context [this (Q2Qc ?q)] => rewrite (this_Q2Qc q)
    end.


Lemma pow10_pos k : (0 < pow10 k)%N.
Proof. unfold pow10. apply N.neq_0_lt_0, N.pow_nonzero. lia. Qed.

Lemma scale_nonneg k a : 0 ≤ a -> 0 ≤ scale k a.
Proof.
  intros Ha. unfold scale. pose proof (pow10_pos k) as Hp. qc.
  assert (0 <= inject_Z (Z.of_N (pow10 k)))%Q.
  { change 0%Q with (inject_Z 0). rewrite <- Zle_Qle. lia. }
  nra.
Qed.

Lemma nearest_floor a :
  0 ≤ a -> Z.of_N (nearest a) = Qfloor (this a + (1 # 2)).
Proof.
  intros Ha. unfold nearest. rewrite Z2N.id.
  - apply Qfloor_comp. qc. reflexivity.
  - change 0%Z with (Qfloor 0). apply Qfloor_resp_le. qc. lra.
Qed.

Lemma tenTo_nat k : (tenTo (Z.of_nat k) == inject_Z (Z.of_N (pow10 k)))%Q.
Proof.
  unfold tenTo, pow10. rewrite N2Z.inj_pow, nat_N_Z.
  change (10 # 1)%Q with (inject_Z 10). symmetry. apply Zpower_Qpower. lia.
Qed.

Lemma divmod_Q (n b : N) :
  (0 < b)%N ->
  (inject_Z (Z.of_N (n / b)) + inject_Z (Z.of_N (n mod b)) / inject_Z (Z.of_N b)
   == inject_Z (Z.of_N n) / inject_Z (Z.of_N b))%Q.
Proof.
  intros Hb. rewrite (N.div_mod n b) at 3 by lia.
  rewrite N2Z.inj_add, N2Z.inj_mul, inject_Z_plus, inject_Z_mult.
  field. change 0%Q with (inject_Z 0). rewrite inject_Z_injective. lia.
Qed.

(** *** [parseFloat] after [toFixed] *)

(** Below [10^21], reading what [toFixed] wrote gives the rounded number. *)
Lemma parseFloat_toFixed k x :
  Qcabs x < limit21 -> parseFloat (toFixed (S k) x) = Some (rounded (S k) x).
Proof.
  intros Hx. unfold toFixed, rounded.
  destruct (decide (limit21 ≤ Qcabs x)) as [Hge|_].
  { exfalso. revert Hx Hge. unfold Qcle, Qclt. lra. }
  set (n := nearest (scale (S k) (Qcabs x))).
  set (f := S k). 
  destruct (to_uint_head (n / pow10 f)) as (c & r & Hd & Hws & Hm & Hp).
  assert (Hparse : forall neg s1, trimStart s1 = s1 ->
     readSign s1 = (neg, digits (n / pow10 f) +:+ "." +:+ fraction f (n mod pow10 f)) ->
     parseFloat s1 = Some (Q2Qc (if neg then - (inject_Z (Z.of_N n) / inject_Z (Z.of_N (pow10 f)))
                                 else inject_Z (Z.of_N n) / inject_Z (Z.of_N (pow10 f)))%Q)).
  { intros neg s1 Ht Hs. unfold parseFloat. rewrite Ht, Hs.
    unfold digits at 1. rewrite spanDigits_print by done.
    change ("." +:+ fraction f (n `mod` pow10 f))
      with (String "." (fraction f (n `mod` pow10 f))).
    cbn match. change (Ascii.eqb "." ".") with true. cbn match.
    unfold fraction. rewrite spanDigits_print_end.
    rewrite noDigit_to_uint. simpl andb. cbn match. simpl readExponent.
    f_equal. apply Q2Qc_eq.
    assert (Hv : ((ofDigits (N.to_uint (n / pow10 f))
             + ofDigits (lastDigits f (n mod pow10 f))
               / tenTo (Z.of_nat (Decimal.nb_digits (lastDigits f (n mod pow10 f)))))
             * tenTo 0 == inject_Z (Z.of_N n) / inject_Z (Z.of_N (pow10 f)))%Q).
    { unfold ofDigits. rewrite DecimalN.Unsigned.of_to, of_uint_lastDigits, nb_digits_lastDigits.
      rewrite N.Div0.mod_mod, tenTo_nat. 
      rewrite <- (divmod_Q n (pow10 f)) by apply pow10_pos.
      change (tenTo 0) with 1%Q. ring. }
    destruct neg; by rewrite Hv. }
  case_decide as Hneg.
  - rewrite Qcopp_Q2Qc. apply (Hparse true); reflexivity.
  - apply (Hparse false).
    + simpl append. rewrite Hd. simpl. by rewrite Hws.
    + simpl append. rewrite Hd. simpl. by rewrite Hm, Hp.
Qed.

Lemma parseFloat_toFixed0 x :
  Qcabs x < limit21 -> parseFloat (toFixed 0 x) = Some (rounded 0 x).
Proof.
  intros Hx. unfold toFixed, rounded.
  destruct (decide (limit21 ≤ Qcabs x)) as [Hge|_].
  { exfalso. revert Hx Hge. unfold Qcle, Qclt. lra. }
  set (n := nearest (scale 0 (Qcabs x))).
  destruct (to_uint_head n) as (c & r & Hd & Hws & Hm & Hp).
  assert (Hparse : forall neg s1, trimStart s1 = s1 ->
     readSign s1 = (neg, digits n) ->
     parseFloat s1 = Some (Q2Qc (if neg then - (inject_Z (Z.of_N n) / inject_Z (Z.of_N (pow10 0)))
                                 else inject_Z (Z.of_N n) / inject_Z (Z.of_N (pow10 0)))%Q)).
  { intros neg s1 Ht Hs. unfold parseFloat. rewrite Ht, Hs.
    unfold digits. rewrite spanDigits_print_end. cbn match.
    rewrite noDigit_to_uint. simpl andb. cbn match. simpl readExponent.
    f_equal. apply Q2Qc_eq.
    assert (Hv : ((ofDigits (N.to_uint n)
             + ofDigits Decimal.Nil / tenTo (Z.of_nat (Decimal.nb_digits Decimal.Nil)))
             * tenTo 0 == inject_Z (Z.of_N n) / inject_Z (Z.of_N (pow10 0)))%Q).
    { unfold ofDigits. rewrite DecimalN.Unsigned.of_to.
      change (tenTo 0) with 1%Q. change (pow10 0) with 1%N.
      change (tenTo (Z.of_nat (Decimal.nb_digits Decimal.Nil))) with 1%Q.
      change (inject_Z (Z.of_N (N.of_uint Decimal.Nil))) with 0%Q.
      change (inject_Z (Z.of_N 1)) with 1%Q. field. }
    destruct neg; by rewrite Hv. }
  case_decide as Hneg.
  - rewrite Qcopp_Q2Qc. apply (Hparse true); reflexivity.
  - apply (Hparse false).
    + change ("" +:+ digits n) with (digits n). rewrite Hd. cbn [trimStart]. by rewrite Hws.
    + change ("" +:+ digits n) with (digits n). rewrite Hd. unfold readSign. by rewrite Hm, Hp.
Qed.

(** A multiple of [1 / 10^f]. *)
Lemma rounded_grid f x :
  exists z : Z, rounded f x = Q2Qc (inject_Z z / inject_Z (Z.of_N (pow10 f))).
Proof.
  unfold rounded. case_decide.
  - exists (- Z.of_N (nearest (scale f (Qcabs x))))%Z.
    rewrite Qcopp_Q2Qc. apply Q2Qc_eq. rewrite inject_Z_opp.
    unfold Qdiv. ring.
  - by eexists.
Qed.

(** *** Rounding to two decimals *)
Lemma scale2_Q a : (this (scale 2 a) == this a * 100)%Q.
Proof. unfold scale. change (pow10 2) with 100%N. qc. reflexivity. Qed.

Lemma nearest2_bounds a :
  0 ≤ a ->
  (inject_Z (Z.of_N (nearest (scale 2 a))) <= this a * 100 + (1 # 2)
   /\ this a * 100 + (1 # 2) < inject_Z (Z.of_N (nearest (scale 2 a))) + 1)%Q.
Proof.
  intros Ha. rewrite nearest_floor by (by apply scale_nonneg).
  rewrite (Qfloor_comp _ (this a * 100 + (1 # 2)))
    by (rewrite scale2_Q; reflexivity).
  pose proof (Qfloor_le (this a * 100 + (1 # 2))) as H1.
  pose proof (Qlt_floor (this a * 100 + (1 # 2))) as H2.
  rewrite inject_Z_plus in H2. change (inject_Z 1) with 1%Q in H2.
  split; [exact H1 | exact H2].
Qed.

Lemma rounded2_Q x :
  (this (rounded 2 x) ==
   if decide (x < 0)%Qc
   then - (inject_Z (Z.of_N (nearest (scale 2 (- x)%Qc))) * (1 # 100))
   else inject_Z (Z.of_N (nearest (scale 2 x))) * (1 # 100))%Q.
Proof.
  unfold rounded, Qcabs. change (pow10 2) with 100%N.
  case_decide; qc; reflexivity.
Qed.

Lemma rounded2_close x :
  (- (1 # 200) <= this (rounded 2 x) - this x <= 1 # 200)%Q.
Proof.
  rewrite rounded2_Q. case_decide as Hx.
  - assert (Ha : 0 ≤ - x) by (qc; lra).
    destruct (nearest2_bounds _ Ha) as [H1 H2]. revert H1 H2. qc.
    intros H1 H2. split; lra.
  - assert (Ha : 0 ≤ x) by (qc; lra).
    destruct (nearest2_bounds _ Ha) as [H1 H2]. split; lra.
Qed.

Lemma nearest2_mono a b :
  0 ≤ a -> a ≤ b -> (nearest (scale 2 a) <= nearest (scale 2 b))%N.
Proof.
  intros Ha Hab. assert (Hb : 0 ≤ b) by (qc; lra).
  apply N2Z.inj_le. rewrite !nearest_floor by (by apply scale_nonneg).
  apply Qfloor_resp_le. rewrite !scale2_Q. revert Hab. qc. lra.
Qed.

Lemma rounded2_mono x y : x ≤ y -> rounded 2 x ≤ rounded 2 y.
Proof.
  intros Hxy. unfold Qcle. rewrite !rounded2_Q.
  destruct (decide (x < 0)) as [Hx|Hx], (decide (y < 0)) as [Hy|Hy].
  - assert (H : (nearest (scale 2 (- y)) <= nearest (scale 2 (- x)))%N).
    { apply nearest2_mono; qc; lra. }
    apply N2Z.inj_le in H. rewrite Zle_Qle in H. lra.
  - assert (H1 : (0 <= inject_Z (Z.of_N (nearest (scale 2 (- x)))))%Q).
    { change 0%Q with (inject_Z 0). rewrite <- Zle_Qle. lia. }
    assert (H2 : (0 <= inject_Z (Z.of_N (nearest (scale 2 y))))%Q).
    { change 0%Q with (inject_Z 0). rewrite <- Zle_Qle. lia. }
    lra.
  - exfalso. qc. lra.
  - assert (H : (nearest (scale 2 x) <= nearest (scale 2 y))%N).
    { apply nearest2_mono; qc; lra. }
    apply N2Z.inj_le in H. rewrite Zle_Qle in H. lra.
Qed.

Lemma rounded2_fix x : twoDecimals x -> rounded 2 x = x.
Proof.
  intros [z ->]. apply Qc_is_canon. rewrite rounded2_Q.
  assert (Hz : (z # 100 == inject_Z z * (1 # 100))%Q).
  { unfold Qeq. simpl. lia. }
  assert (Hfl : forall w : Z, (0 <= w)%Z ->
            Z.of_N (nearest (scale 2 (Q2Qc (w # 100)))) = w).
  { intros w Hw. rewrite nearest_floor.
    - rewrite scale2_Q. qc.
      assert (Hq : ((w # 100) * 100 + (1 # 2) == inject_Z w + (1 # 2))%Q).
      { unfold Qeq. simpl. lia. }
      rewrite (Qfloor_comp _ _ Hq).
      apply Z.le_antisymm.
      + apply Z.lt_succ_r. rewrite Zlt_Qlt.
        eapply Qle_lt_trans; [apply Qfloor_le|]. rewrite <- Z.add_1_r, inject_Z_plus.
        change (inject_Z 1) with 1%Q. lra.
      + rewrite <- (Qfloor_Z w) at 1. apply Qfloor_resp_le. lra.
    - apply scale_nonneg. qc. unfold Qle. simpl. lia. }
  case_decide as Hneg.
  - assert (Hz' : (z < 0)%Z).
    { revert Hneg. qc. unfold Qlt. simpl. lia. }
    assert (Hopp : - Q2Qc (z # 100) = Q2Qc ((- z) # 100)).
    { rewrite Qcopp_Q2Qc. apply Q2Qc_eq. unfold Qeq. simpl. lia. }
    rewrite Hopp, Hfl by lia. qc. rewrite Hz, inject_Z_opp. lra.
  - assert (Hz' : (0 <= z)%Z).
    { destruct (Z.le_gt_cases 0 z) as [|Hlt]; [done|]. exfalso. apply Hneg.
      qc. unfold Qlt. simpl. lia. }
    rewrite Hfl by done. qc. by rewrite Hz.
Qed.

Lemma rounded2_ge e x : twoDecimals e -> e ≤ x -> e ≤ rounded 2 x.
Proof. intros He Hx. rewrite <- (rounded2_fix e He). by apply rounded2_mono. Qed.

Lemma parseFloat_leads neg c r :
  leads c ->
  is_Some (parseFloat ((if neg : bool then "-" else "") +:+ String c r)).
Proof.
  intros (Hws & Hm & Hp & d & Hd & Hnd).
  unfold parseFloat.
  assert (Hs : readSign (trimStart ((if neg then "-" else "") +:+ String c r))
               = (neg, String c r)).
  { destruct neg; [reflexivity|]. change ("" +:+ String c r) with (String c r).
    cbn [trimStart]. rewrite Hws.
    unfold readSign. by rewrite Hm, Hp. }
  rewrite Hs. simpl spanDigits. rewrite Hd.
  destruct (spanDigits r) as [u rest].
  match goal with |- context [match ?t with String _ _ => _ | EmptyString => _ end] =>
    destruct t as [|c1 r1] end.
  - rewrite Hnd. simpl. by eexists.
  - destruct (Ascii.eqb c1 "."); [destruct (spanDigits r1)|]; rewrite Hnd; simpl; by eexists.
Qed.

Lemma leads_digits d c r : NilEmpty.string_of_uint d = String c r -> leads c.
Proof.
  intros Heq. destruct d; [done|..]; simpl in Heq; injection Heq as <- _;
    (split; [done|split; [done|split; [done|]]]); eexists; (split; [reflexivity|done]).
Qed.

Lemma stripZeros_head s c r :
  stripZeros s = String c r -> exists r0, s = String c r0.
Proof.
  destruct s as [|c0 r0]; simpl; [done|].
  destruct (stripZeros r0); [destruct (Ascii.eqb c0 "0")|]; intros [= <- _]; by eexists.
Qed.

Lemma exponential_leads a :
  exists c r, exponential a = String c r /\ leads c.
Proof.
  unfold exponential.
  set (m := Z.to_N (Qfloor a)).
  assert (Hz : leads "0").
  { repeat split; eexists; (split; [reflexivity|done]). }
  destruct (stripZeros (digits m)) as [|c r] eqn:Hs.
  { by eexists _, _. }
  destruct (stripZeros_head _ _ _ Hs) as [r0 Hr0].
  assert (Hc : leads c).
  { unfold digits in Hr0. by eapply leads_digits. }
  destruct r; by eexists _, _.
Qed.

Lemma parseFloat_toFixed_total k x : is_Some (parseFloat (toFixed (S k) x)).
Proof.
  destruct (decide (limit21 ≤ Qcabs x)) as [Hge|Hlt].
  - unfold toFixed. rewrite decide_True by done.
    destruct (exponential_leads (Qcabs x)) as (c & r & -> & Hc).
    case_decide.
    + by apply (parseFloat_leads true).
    + by apply (parseFloat_leads false).
  - rewrite parseFloat_toFixed; [by eexists|]. revert Hlt. unfold Qcle, Qclt. lra.
Qed.

(** *** Whole numbers, and the replacement of commas *)


Lemma floor_half (m : Z) : Qfloor (inject_Z m + (1 # 2)) = m.
Proof.
  apply Z.le_antisymm.
  - apply Z.lt_succ_r. rewrite Zlt_Qlt.
    eapply Qle_lt_trans; [apply Qfloor_le|].
    rewrite <- Z.add_1_r, inject_Z_plus. change (inject_Z 1) with 1%Q. lra.
  - rewrite <- (Qfloor_Z m) at 1. apply Qfloor_resp_le. lra.
Qed.

Lemma whole_nonneg (w : Z) : (0 <= w)%Z -> 0 ≤ Q2Qc (inject_Z w).
Proof. intros Hw. qc. change 0%Q with (inject_Z 0). by rewrite <- Zle_Qle. Qed.

Lemma nearest_scale_whole k (w : Z) :
  (0 <= w)%Z ->
  nearest (scale k (Q2Qc (inject_Z w))) = (Z.to_N w * pow10 k)%N.
Proof.
  intros Hw. apply N2Z.inj.
  rewrite nearest_floor by (by apply scale_nonneg, whole_nonneg).
  rewrite N2Z.inj_mul, Z2N.id by done.
  rewrite <- (floor_half (w * Z.of_N (pow10 k))). apply Qfloor_comp.
  unfold scale. qc. rewrite inject_Z_mult. reflexivity.
Qed.

Lemma Qcabs_whole (z : Z) :
  Qcabs (Q2Qc (inject_Z z)) = Q2Qc (inject_Z (Z.abs z))
  ∧ (Q2Qc (inject_Z z) < 0 <-> (z < 0)%Z).
Proof.
  assert (Hneg : Q2Qc (inject_Z z) < 0 <-> (z < 0)%Z).
  { qc. change 0%Q with (inject_Z 0). by rewrite <- Zlt_Qlt. }
  split; [|done]. unfold Qcabs. case_decide as H.
  - rewrite Qcopp_Q2Qc. apply Q2Qc_eq. rewrite <- inject_Z_opp.
    apply Hneg in H. by rewrite Z.abs_neq by lia.
  - rewrite Z.abs_eq; [done|]. apply Z.le_ngt. by rewrite <- Hneg.
Qed.

(** [toFixed] of a whole number below [10^21]. *)
Lemma toFixed_whole (z : Z) :
  Qcabs (Q2Qc (inject_Z z)) < limit21 ->
  toFixed 0 (Q2Qc (inject_Z z))
  = (if decide (z < 0)%Z then "-" else "") +:+ digits (Z.abs_N z)
  ∧ toFixed 1 (Q2Qc (inject_Z z))
    = (if decide (z < 0)%Z then "-" else "") +:+ digits (Z.abs_N z) +:+ ".0".
Proof.
  intros Hlim. destruct (Qcabs_whole z) as [Habs Hneg].
  assert (Hs : (if decide (Q2Qc (inject_Z z) < 0) then "-" else "")
               = (if decide (z < 0)%Z then "-" else "")).
  { destruct (decide (Q2Qc (inject_Z z) < 0)) as [H|H], (decide (z < 0)%Z) as [H'|H'];
      try done; exfalso; tauto. }
  unfold toFixed. rewrite Hs.
  destruct (decide (limit21 ≤ Qcabs (Q2Qc (inject_Z z)))) as [Hge|_].
  { exfalso. revert Hlim Hge. unfold Qcle, Qclt. lra. }
  rewrite Habs, !nearest_scale_whole by lia.
  replace (Z.to_N (Z.abs z)) with (Z.abs_N z) by (by destruct z).
  split.
  - change (pow10 0) with 1%N. by rewrite N.mul_1_r.
  - change (pow10 1) with 10%N.
    rewrite N.div_mul, N.Div0.mod_mul by done. reflexivity.
Qed.



End JSFacts.

Import JSFacts.

(** ** The effects and the commit *)

(** The [else if] branch of the timer effect never runs: it asks for
    [isVisible] after the first test has found it false. *)
Lemma timerEffect_no_setCount s : (timerEffect s).2 = [].
Proof.
  unfold timerEffect.
  destruct (isVisible s), (startOnViewport (props s)); simpl; try done;
    by case_bool_decide.
Qed.

Lemma owned_loose s : owned s -> mounted s = true -> loose s.
Proof.
  unfold owned, loose. destruct (cleanup s); intros Ho Hm; (split; [done|]);
    [|tauto]. destruct Ho as (-> & ? & _). eauto.
Qed.

Lemma runCleanup_empty s : loose s -> intervals (runCleanup s) = ∅.
Proof.
  unfold loose, runCleanup. destruct (cleanup s); intros [_ H]; [|done].
  destruct H as [[iv Hiv] _]. simpl. rewrite Hiv. apply delete_singleton_eq.
Qed.

Lemma refresh_fields s :
  props (refresh s) = props s ∧ count (refresh s) = count s
  ∧ isVisible (refresh s) = isVisible s ∧ mounted (refresh s) = mounted s
  ∧ (nextId s ≤ nextId (refresh s))%nat.
Proof.
  unfold refresh, timerEffect, runCleanup.
  destruct (cleanup s); simpl;
    repeat match goal with |- context [if ?b then _ else _] => destruct b end;
    simpl; repeat split; lia.
Qed.

Lemma refresh_owned s : loose s -> owned (refresh s).
Proof.
  intros Hl. pose proof (runCleanup_empty s Hl) as He.
  assert (Hf : props (runCleanup s) = props s ∧ isVisible (runCleanup s) = isVisible s
               ∧ mounted (runCleanup s) = mounted s).
  { unfold runCleanup. by destruct (cleanup s). }
  destruct Hf as (Hp & Hv & Hm). destruct Hl as [Hmt _].
  unfold refresh, timerEffect. rewrite Hp, Hv.
  fold (gate (props s) (isVisible s)).
  destruct (gate (props s) (isVisible s)) eqn:Hg.
  - unfold owned. simpl. rewrite He, Hp, Hv, Hm.
    split; [by rewrite insert_empty|]. split; [lia|done].
  - assert (Hc : owned (withCleanup None (runCleanup s))).
    { unfold owned. simpl. by rewrite He, Hp, Hv. }
    by destruct (startOnViewport (props s) && isVisible s).
Qed.

Lemma refresh_fresh s intervalId :
  loose s -> is_Some (intervals (refresh s) !! intervalId) ->
  (nextId s ≤ intervalId)%nat.
Proof.
  intros Hl. pose proof (runCleanup_empty s Hl) as He.
  assert (Hn : nextId (runCleanup s) = nextId s).
  { unfold runCleanup. by destruct (cleanup s). }
  unfold refresh, timerEffect.
  repeat match goal with |- context [if ?b then _ else _] => destruct b end;
    simpl; rewrite He.
  - rewrite Hn. intros [iv Hiv]. apply lookup_insert_Some in Hiv.
    destruct Hiv as [[<- _]|[_ Hiv]]; [lia|]. by rewrite lookup_empty in Hiv.
  - rewrite lookup_empty. by intros [? ?].
  - rewrite lookup_empty. by intros [? ?].
Qed.

(** Two nested renders are enough: the only value that an effect sets is
    [start], and setting it twice changes nothing. *)
Lemma commit_eq fuel tc rc s :
  commit (S (S fuel)) tc rc s =
  Some (let s2 := if tc then refresh s else s in
        if decide (restartValue rc s = count s) then s2
        else refresh (withCount (restartValue rc s) s2)).
Proof.
  assert (Hround : forall k t,
    commit (S k) true false t = Some (refresh t)).
  { intros k t. simpl. unfold refresh.
    pose proof (timerEffect_no_setCount (runCleanup t)) as Hq.
    destruct (timerEffect (runCleanup t)) as [t2 q]. simpl in Hq. subst q.
    simpl. by rewrite decide_True. }
  cbn [commit].
  set (s2 := if tc then refresh s else s).
  assert (Hs2 : (if tc then timerEffect (runCleanup s) else (s, []))
                = (s2, [])).
  { unfold s2, refresh. destruct tc; [|done].
    pose proof (timerEffect_no_setCount (runCleanup s)) as Hq.
    destruct (timerEffect (runCleanup s)) as [t2 q]. simpl in *. by subst. }
  replace (if tc then timerEffect (if tc then runCleanup s else s)
           else (if tc then runCleanup s else s, []))
    with (s2, @nil Qc) by (rewrite <- Hs2; by destruct tc).
  assert (Hf : props s2 = props s ∧ count s2 = count s ∧ isVisible s2 = isVisible s).
  { unfold s2. destruct tc; [|done]. pose proof (refresh_fields s). tauto. }
  destruct Hf as (Hp & Hc & Hv).
  assert (Hval : foldl (fun _ v => v) (count s2)
                   (@nil Qc ++ (if rc then restartEffect s2 else []))
                 = restartValue rc s).
  { unfold restartValue, restartEffect. rewrite Hp, Hv, Hc.
    destruct rc, (restartOnViewport (props s)), (isVisible s); done. }
  cbv zeta. rewrite Hval, Hc.
  case_decide; [done|]. apply Hround.
Qed.

Lemma commit_owned fuel tc rc s s' :
  mounted s = true -> ready tc s ->
  commit (S (S fuel)) tc rc s = Some s' ->
  owned s' ∧ mounted s' = true ∧ props s' = props s
  ∧ isVisible s' = isVisible s ∧ count s' = restartValue rc s
  ∧ (nextId s ≤ nextId s')%nat.
Proof.
  unfold ready. intros Hm Hpre. rewrite commit_eq. intros [= <-].
  set (s2 := if tc then refresh s else s).
  assert (H2 : owned s2 ∧ mounted s2 = true ∧ props s2 = props s
               ∧ isVisible s2 = isVisible s ∧ count s2 = count s
               ∧ (nextId s ≤ nextId s2)%nat).
  { unfold s2. destruct tc; [|by repeat split].
    pose proof (refresh_fields s) as (? & ? & ? & ? & ?).
    split; [by apply refresh_owned|]. repeat split; congruence || done. }
  destruct H2 as (Ho & Hm2 & Hp & Hv & Hc & Hn).
  cbv zeta. case_decide as Hr.
  - repeat split; try done. congruence.
  - pose proof (refresh_fields (withCount (restartValue rc s) s2))
      as (? & ? & ? & ? & ?). simpl in *.
    split.
    { apply refresh_owned. unfold loose. simpl.
      destruct (owned_loose s2 Ho Hm2) as [_ Hl]. by split. }
    repeat split; try congruence. lia.
Qed.

Lemma commit_fresh fuel tc rc s s' intervalId :
  mounted s = true -> ready tc s ->
  commit (S (S fuel)) tc rc s = Some s' ->
  tc = true ∨ restartValue rc s ≠ count s ->
  is_Some (intervals s' !! intervalId) -> (nextId s ≤ intervalId)%nat.
Proof.
  unfold ready. intros Hm Hpre. rewrite commit_eq. intros [= <-] Hch.
  set (s2 := if tc then refresh s else s).
  assert (H2 : loose s2 ∧ (nextId s ≤ nextId s2)%nat
               ∧ (tc = true -> forall i, is_Some (intervals s2 !! i) -> (nextId s ≤ i)%nat)).
  { unfold s2. destruct tc.
    - pose proof (refresh_fields s) as (? & ? & ? & Hmm & ?).
      split; [|split; [done|]].
      + apply owned_loose; [by apply refresh_owned|congruence].
      + intros _ i. by apply refresh_fresh.
    - split; [by apply owned_loose|]. split; [lia|done]. }
  destruct H2 as (Hl & Hn & Hfr).
  cbv zeta. case_decide as Hr.
  - destruct Hch as [->|]; [|done]. by apply Hfr.
  - intros Hi. apply refresh_fresh in Hi; [simpl in Hi; lia|].
    destruct Hl as [? ?]. by split.
Qed.

Lemma commit_same fuel rc s :
  restartValue rc s = count s -> commit (S (S fuel)) false rc s = Some s.
Proof. intros H. rewrite commit_eq. cbv zeta. by rewrite decide_True. Qed.

Lemma updateLimit_eq : updateLimit = S (S 48).
Proof. reflexivity. Qed.

Lemma mount_spec p :
  exists s, mount p = Some s ∧ owned s ∧ mounted s = true ∧ props s = p
            ∧ count s = start p ∧ isVisible s = false.
Proof.
  unfold mount. rewrite updateLimit_eq.
  set (s0 := {| props := p; count := start p; isVisible := false; mounted := true;
                cleanup := None; intervals := ∅; nextId := 0 |}).
  destruct (commit (S (S 48)) true true s0) as [s|] eqn:Hc;
    [|by rewrite commit_eq in Hc].
  exists s. split; [done|].
  apply commit_owned in Hc as (Ho & Hm & Hp & Hv & Hcount & _); [|done|by split].
  repeat split; try done. rewrite Hcount. unfold restartValue. simpl.
  by rewrite andb_false_r.
Qed.

Lemma updateCount_total a b d c : is_Some (updateCount a b d c).
Proof.
  unfold updateCount.
  destruct (parseFloat_toFixed_total 1
              (c + (b - a) / Math_max 1 (Math_ceil (d / Q2Qc 100)))) as [v ->].
  by eexists.
Qed.

(** The timer dependencies decide the gate and the registered interval. *)
Lemma timerDeps_same p q c v :
  timerDeps p c v = timerDeps q c v -> gate p v = gate q v ∧ timerOf p = timerOf q.
Proof.
  unfold timerDeps, gate, timerOf. intros [= -> -> _ -> _ ->]. done.
Qed.

Lemma owned_withProps p s :
  owned s -> timerDeps p (count s) (isVisible s)
             = timerDeps (props s) (count s) (isVisible s) ->
  owned (withProps p s).
Proof.
  intros Ho Hd. apply timerDeps_same in Hd as [Hg Ht].
  unfold owned in *. simpl. destruct (cleanup s); rewrite Hg, ?Ht; done.
Qed.

Lemma owned_unmounted s : owned s -> mounted s = false -> intervals s = ∅.
Proof.
  unfold owned. destruct (cleanup s); [|tauto]. intros (_ & _ & Hm & _). congruence.
Qed.

Lemma step_unmounted e s : owned s -> mounted s = false -> step e s = Some s.
Proof.
  intros Ho Hm. destruct e; simpl; rewrite ?Hm; try done.
  by rewrite (owned_unmounted s Ho Hm), lookup_empty.
Qed.

(** What a step does to a mounted component. *)
Lemma step_mounted e s s' :
  owned s -> mounted s = true -> step e s = Some s' ->
  match e with
  | Tick i =>
      match intervals s !! i with
      | Some iv =>
          exists c, call (callback iv) (count s) = Some c ∧
            if decide (c = count s) then s' = s
            else s' = refresh (withCount c s)
      | None => s' = s
      end
  | Intersect b =>
      if decide (b = isVisible s) then s' = s
      else commit updateLimit true true (withVisible b s) = Some s'
  | Render p =>
      commit updateLimit
        (bool_decide (timerDeps p (count s) (isVisible s)
                      ≠ timerDeps (props s) (count s) (isVisible s)))
        (bool_decide (restartDeps p (isVisible s)
                      ≠ restartDeps (props s) (isVisible s)))
        (withProps p s) = Some s'
  | Unmount => mounted s' = false ∧ intervals s' = ∅ ∧ cleanup s' = None
               ∧ props s' = props s ∧ count s' = count s
               ∧ isVisible s' = isVisible s
  end.
Proof.
  intros Ho Hm. destruct e as [i|b|p|]; cbn [step]; rewrite ?Hm.
  - destruct (intervals s !! i) as [iv|]; [|by intros [= <-]].
    destruct (call (callback iv) (count s)) as [c|]; [|done]. cbn [mbind option_bind].
    intros Hs. exists c. split; [done|]. case_decide; [by injection Hs|].
    rewrite updateLimit_eq, commit_eq in Hs. injection Hs as <-.
    cbv zeta. unfold restartValue. simpl. by rewrite decide_True.
  - case_decide; [by intros [= <-]|done].
  - done.
  - intros [= <-]. simpl.
    assert (Hl : loose s) by (by apply owned_loose).
    pose proof (runCleanup_empty s Hl) as He.
    unfold runCleanup in *. destruct (cleanup s) eqn:Hc; simpl in *; [done|].
    unfold owned in Ho. rewrite Hc in Ho. by destruct Ho as [-> _].
Qed.

Lemma step_owned e s s' : owned s -> step e s = Some s' -> owned s'.
Proof.
  intros Ho Hs. destruct (mounted s) eqn:Hm.
  2:{ rewrite step_unmounted in Hs by done. by injection Hs as <-. }
  pose proof (step_mounted e s s' Ho Hm Hs) as H.
  destruct e as [i|b|p|].
  - destruct (intervals s !! i); [|by subst].
    destruct H as (c & _ & H). case_decide; subst; [done|].
    apply refresh_owned. destruct (owned_loose s Ho Hm). by split.
  - case_decide; [by subst|]. rewrite updateLimit_eq in H.
    apply commit_owned in H; [tauto|done|].
    destruct (owned_loose s Ho Hm). by split.
  - rewrite updateLimit_eq in H. apply commit_owned in H; [tauto|done|].
    unfold ready. case_bool_decide as Hd.
    + destruct (owned_loose s Ho Hm). by split.
    + apply owned_withProps; [done|].
      by destruct (decide (timerDeps p (count s) (isVisible s)
                           = timerDeps (props s) (count s) (isVisible s))).
  - destruct H as (Hm' & Hi & Hc & _). unfold owned. rewrite Hc. split; [done|congruence].
Qed.

Lemma reachable_owned s : reachable s -> owned s.
Proof.
  induction 1 as [p s Hm|e s s' _ IH Hs].
  - destruct (mount_spec p) as (s1 & H1 & Ho & _). congruence.
  - by eapply step_owned.
Qed.

Lemma step_total e s : owned s -> is_Some (step e s).
Proof.
  intros Ho. destruct (mounted s) eqn:Hm.
  2:{ rewrite step_unmounted by done. by eexists. }
  destruct e as [i|b|p|]; cbn [step]; rewrite Hm, ?updateLimit_eq.
  - destruct (intervals s !! i) as [iv|]; [|by eexists].
    destruct (updateCount_total (startVar (callback iv)) (endVar (callback iv))
                (durationVar (callback iv)) (count s)) as [c Hc].
    unfold call. rewrite Hc. cbn [mbind option_bind]. case_decide; [by eexists|].
    rewrite commit_eq. by eexists.
  - case_decide; [by eexists|]. rewrite commit_eq. by eexists.
  - rewrite commit_eq. by eexists.
  - by eexists.
Qed.

Lemma run_total es s : owned s -> exists s', run es s = Some s' ∧ owned s'.
Proof.
  revert s. induction es as [|e es IH]; intros s Ho; simpl; [by exists s|].
  destruct (step_total e s Ho) as [s1 H1]. rewrite H1. simpl.
  apply IH. by eapply step_owned.
Qed.

Lemma run_reachable es s s' : reachable s -> run es s = Some s' -> reachable s'.
Proof.
  revert s. induction es as [|e es IH]; intros s Hr; simpl; [by intros [= <-]|].
  destruct (step e s) as [s1|] eqn:H1; [|done]. simpl.
  apply IH. by eapply reach_step.
Qed.

(** An invariant of the steps holds along every history, and the history
    exists. *)
Lemma history_inv (P : State -> Prop) es s :
  owned s -> P s ->
  (forall e t t', e ∈ es -> owned t -> P t -> step e t = Some t' -> P t') ->
  exists h, history es s = Some h ∧ Forall (fun t => owned t ∧ P t) h.
Proof.
  revert s. induction es as [|e es IH]; intros s Ho HP Hstep; simpl.
  { exists [s]. split; [done|]. by repeat constructor. }
  destruct (step_total e s Ho) as [s1 H1]. rewrite H1. simpl.
  destruct (IH s1) as (h & Hh & HF).
  - by eapply step_owned.
  - eapply Hstep; [|done..]. by left.
  - intros e' t t' He'. apply Hstep. by right.
  - rewrite Hh. simpl. exists (s :: h). split; [done|]. by constructor.
Qed.

(** ** The step of the counter *)

Lemma totalSteps_ge1 d : 1 ≤ totalSteps d.
Proof.
  unfold totalSteps, Math_max. case_decide as H; [done|]. unfold Qcle. lra.
Qed.

Lemma Qcdiv_nonneg a b : 0 ≤ a -> 0 < b -> 0 ≤ a / b.
Proof.
  intros Ha Hb. apply Qcinv_pos in Hb. unfold Qcdiv.
  revert Ha Hb. generalize (/ b). intros c. qc. nra.
Qed.

Lemma increment_nonneg p : start p ≤ end_ p -> 0 ≤ increment p.
Proof.
  intros H. unfold increment. apply Qcdiv_nonneg.
  - revert H. qc. lra.
  - pose proof (totalSteps_ge1 (duration p)) as H1. revert H1. qc. lra.
Qed.

Lemma increment_zero p : start p = end_ p -> increment p = 0.
Proof. intros H. unfold increment. rewrite H. unfold Qcdiv. ring. Qed.

(** The updater in terms of the rounding. *)
Lemma updateCount_rounded p c :
  Qcabs (c + increment p) < limit21 ->
  updateCount (start p) (end_ p) (duration p) c =
  Some (if decide (end_ p ≤ rounded 2 (c + increment p)) then end_ p
        else rounded 2 (c + increment p)).
Proof.
  intros H. unfold updateCount. cbv zeta.
  fold (totalSteps (duration p)). fold (increment p).
  by rewrite parseFloat_toFixed.
Qed.

Lemma call_timerOf p : call (callback (timerOf p)) = updateCount (start p) (end_ p) (duration p).
Proof. reflexivity. Qed.

(** A live interval is the one of the current props. *)
Lemma owned_lookup s i iv :
  owned s -> intervals s !! i = Some iv ->
  cleanup s = Some i ∧ iv = timerOf (props s) ∧ mounted s = true
  ∧ gate (props s) (isVisible s) = true ∧ (i < nextId s)%nat.
Proof.
  unfold owned. destruct (cleanup s) as [j|].
  - intros (-> & ? & ? & ?) Hl. apply lookup_singleton_Some in Hl as [<- <-]. done.
  - intros [-> _]. by rewrite lookup_empty.
Qed.

Lemma step_tick_count s i iv s' :
  owned s -> intervals s !! i = Some iv -> step (Tick i) s = Some s' ->
  call (callback iv) (count s) = Some (count s')
  ∧ props s' = props s ∧ isVisible s' = isVisible s.
Proof.
  intros Ho Hl Hs. destruct (owned_lookup s i iv Ho Hl) as (_ & _ & Hm & _).
  pose proof (step_mounted _ _ _ Ho Hm Hs) as H. simpl in H. rewrite Hl in H.
  destruct H as (c & Hc & H). case_decide; subst; [by rewrite Hc|].
  pose proof (refresh_fields (withCount c s)) as (? & ? & ? & _). simpl in *.
  split; [congruence|done].
Qed.

(** What the observer callback does to a mounted component. *)
Lemma step_intersect b s s' :
  owned s -> mounted s = true -> step (Intersect b) s = Some s' ->
  owned s' ∧ mounted s' = true ∧ props s' = props s
  ∧ (b = isVisible s -> s' = s)
  ∧ (b ≠ isVisible s -> isVisible s' = b
       ∧ count s' = restartValue true (withVisible b s)
       ∧ forall i, is_Some (intervals s' !! i) -> (nextId s ≤ i)%nat).
Proof.
  intros Ho Hm Hs. pose proof (step_mounted _ _ _ Ho Hm Hs) as H. lazy beta iota in H.
  case_decide as Hb.
  - subst s'. repeat split; try done.
  - rewrite updateLimit_eq in H.
    assert (Hl : loose (withVisible b s)).
    { destruct (owned_loose s Ho Hm). by split. }
    pose proof (commit_owned _ true true (withVisible b s) s' Hm Hl H)
      as (? & ? & ? & ? & ? & ?).
    repeat split; try done. intros i.
    apply (commit_fresh _ true true (withVisible b s) s' i Hm Hl H). by left.
Qed.

Lemma step_keepsProps e s s' :
  owned s -> keepsProps e = true -> step e s = Some s' -> props s' = props s.
Proof.
  intros Ho He Hs. destruct (mounted s) eqn:Hm.
  2:{ rewrite step_unmounted in Hs by done. by injection Hs as <-. }
  destruct e as [i|b|p|]; [| |done|].
  - destruct (intervals s !! i) as [iv|] eqn:Hl.
    + by apply (step_tick_count _ _ _ _ Ho Hl) in Hs as (_ & ? & _).
    + simpl in Hs. rewrite Hl in Hs. by injection Hs as <-.
  - by apply step_intersect in Hs as (_ & _ & ? & _).
  - apply (step_mounted _ _ _ Ho Hm) in Hs. lazy beta iota in Hs. tauto.
Qed.

(** With [startOnViewport] the interval exists only while visible. *)
Lemma viewport_gated s :
  reachable s -> startOnViewport (props s) = true -> isVisible s = false ->
  intervals s = ∅.
Proof.
  intros Hr Hv Hi. pose proof (reachable_owned s Hr) as Ho.
  unfold owned, gate in Ho. rewrite Hv, Hi in Ho. simpl in Ho.
  destruct (cleanup s); [|tauto]. by destruct Ho as (_ & _ & _ & ?).
Qed.

Lemma run_unmounted es s : owned s -> mounted s = false -> run es s = Some s.
Proof.
  intros Ho Hm. induction es as [|e es IH]; [done|].
  cbn [run]. by rewrite step_unmounted.
Qed.

Lemma sampleC6_reachable : reachable sampleC6.
Proof.
  assert (H : exists s0, mount (config 0 10 1000 true true) = Some s0
                ∧ run [Intersect true; Tick 0; Tick 1; Intersect false]%nat s0
                  = Some sampleC6).
  { eexists. split; [vm_compute; reflexivity|]. vm_compute. reflexivity. }
  destruct H as (s0 & Hm & Hrun).
  eapply run_reachable; [|exact Hrun]. by eapply reach_mount.
Qed.

Lemma sampleC7_reachable : reachable sampleC7.
Proof.
  assert (H : exists s0, mount (config 0 10 200 false false) = Some s0
                ∧ run [Tick 0; Tick 1]%nat s0 = Some sampleC7).
  { eexists. split; [vm_compute; reflexivity|]. vm_compute. reflexivity. }
  destruct H as (s0 & Hm & Hrun).
  eapply run_reachable; [|exact Hrun]. by eapply reach_mount.
Qed.

(** ** Another value of [loop] *)

Lemma setLoop_same p : setLoop (loop p) p = p.
Proof. by destruct p. Qed.

Lemma relabel_same s : relabel (loop (props s)) s = s.
Proof. unfold relabel. rewrite setLoop_same. by destruct s. Qed.

Lemma runCleanup_relabel b s : runCleanup (relabel b s) = relabel b (runCleanup s).
Proof. unfold runCleanup. simpl. by destruct (cleanup s). Qed.

Lemma timerEffect_relabel b s :
  timerEffect (relabel b s) = (relabel b (timerEffect s).1, (timerEffect s).2).
Proof.
  unfold timerEffect. simpl.
  repeat match goal with |- context [if ?c then _ else _] => destruct c end; done.
Qed.

Lemma commit_relabel b fuel tc rc s :
  commit fuel tc rc (relabel b s) = option_map (relabel b) (commit fuel tc rc s).
Proof.
  revert tc rc s. induction fuel as [|fuel IH]; intros tc rc s; [done|].
  cbn [commit].
  assert (H1 : (if tc then timerEffect (if tc then runCleanup (relabel b s) else relabel b s)
               else (if tc then runCleanup (relabel b s) else relabel b s, []))
             = (relabel b (if tc then timerEffect (if tc then runCleanup s else s)
                           else (if tc then runCleanup s else s, [])).1,
                (if tc then timerEffect (if tc then runCleanup s else s)
                 else (if tc then runCleanup s else s, [])).2)).
  { destruct tc; [|done]. by rewrite runCleanup_relabel, timerEffect_relabel. }
  rewrite H1.
  destruct (if tc then timerEffect (if tc then runCleanup s else s)
            else (if tc then runCleanup s else s, [])) as [s2 q1].
  cbn [fst snd].
  change (restartEffect (relabel b s2)) with (restartEffect s2).
  change (count (relabel b s2)) with (count s2).
  case_decide; [done|].
  apply (IH true false (withCount _ s2)).
Qed.

Lemma commit_props fuel tc rc s s' :
  commit fuel tc rc s = Some s' -> props s' = props s.
Proof.
  revert tc rc s. induction fuel as [|fuel IH]; intros tc rc s; [done|].
  cbn [commit].
  assert (Hp : props (if tc then timerEffect (if tc then runCleanup s else s)
                      else (if tc then runCleanup s else s, [])).1 = props s).
  { destruct tc; [|done]. pose proof (refresh_fields s). unfold refresh in *. tauto. }
  destruct (if tc then timerEffect (if tc then runCleanup s else s)
            else (if tc then runCleanup s else s, [])) as [s2 q1].
  cbn [fst] in Hp. case_decide; [by intros [= <-]|].
  intros Hc. apply IH in Hc. by rewrite Hc.
Qed.

Lemma timerDeps_setLoop b b0 p q c v :
  timerDeps (setLoop b p) c v ≠ timerDeps (setLoop b q) c v
  <-> timerDeps (setLoop b0 p) c v ≠ timerDeps (setLoop b0 q) c v.
Proof.
  unfold timerDeps. simpl. split; intros H [= ? ? ? ? ?]; apply H; congruence.
Qed.

Lemma timerChanged_relabel b s p :
  bool_decide (timerDeps (setLoop b p) (count s) (isVisible s)
               ≠ timerDeps (setLoop b (props s)) (count s) (isVisible s))
  = bool_decide (timerDeps (setLoop (loop (props s)) p) (count s) (isVisible s)
                 ≠ timerDeps (props s) (count s) (isVisible s)).
Proof.
  apply bool_decide_ext. rewrite (timerDeps_setLoop b (loop (props s))).
  by rewrite setLoop_same.
Qed.

(** A step commutes with the change of [loop]. *)
Lemma step_relabel b e s :
  step (onLoop b e) (relabel b s)
  = option_map (relabel b) (step (onLoop (loop (props s)) e) s).
Proof.
  destruct e as [i|v|p|]; cbn [step onLoop].
  - change (intervals (relabel b s)) with (intervals s).
    change (mounted (relabel b s)) with (mounted s).
    change (count (relabel b s)) with (count s).
    destruct (intervals s !! i) as [iv|]; [|done].
    destruct (mounted s); [|done].
    destruct (call (callback iv) (count s)) as [c|]; [|done].
    cbn [mbind option_bind]. case_decide; [done|].
    apply (commit_relabel b _ true false (withCount c s)).
  - change (mounted (relabel b s)) with (mounted s).
    change (isVisible (relabel b s)) with (isVisible s).
    destruct (mounted s); [|done]. case_decide; [done|].
    apply (commit_relabel b _ true true (withVisible v s)).
  - change (mounted (relabel b s)) with (mounted s).
    destruct (mounted s); [|done].
    change (count (relabel b s)) with (count s).
    change (isVisible (relabel b s)) with (isVisible s).
    change (props (relabel b s)) with (setLoop b (props s)).
    rewrite timerChanged_relabel.
    apply (commit_relabel b _ _ _ (withProps (setLoop (loop (props s)) p) s)).
  - change (mounted (relabel b s)) with (mounted s).
    destruct (mounted s); [|done]. rewrite runCleanup_relabel. done.
Qed.

Lemma step_loop e s s' :
  step (onLoop (loop (props s)) e) s = Some s' -> loop (props s') = loop (props s).
Proof.
  destruct e as [i|v|p|]; cbn [step onLoop].
  - destruct (intervals s !! i) as [iv|]; [|by intros [= <-]].
    destruct (mounted s); [|by intros [= <-]].
    destruct (call (callback iv) (count s)) as [c|]; [|done].
    cbn [mbind option_bind]. case_decide; [by intros [= <-]|].
    intros Hc. apply commit_props in Hc. by rewrite Hc.
  - destruct (mounted s); [|by intros [= <-]]. case_decide; [by intros [= <-]|].
    intros Hc. apply commit_props in Hc. by rewrite Hc.
  - destruct (mounted s); [|by intros [= <-]].
    intros Hc. apply commit_props in Hc. by rewrite Hc.
  - destruct (mounted s); intros [= <-]; [|done]. simpl.
    unfold runCleanup. by destruct (cleanup s).
Qed.

Lemma history_relabel b es s :
  history (onLoop b <$> es) (relabel b s)
  = option_map (List.map (relabel b)) (history (onLoop (loop (props s)) <$> es) s).
Proof.
  revert s. induction es as [|e es IH]; intros s; [done|].
  cbn [fmap list_fmap history]. rewrite step_relabel.
  destruct (step (onLoop (loop (props s)) e) s) as [s1|] eqn:Hs; [|done].
  cbn [option_map mbind option_bind]. rewrite IH.
  rewrite (step_loop _ _ _ Hs).
  by destruct (history _ s1).
Qed.

Lemma trace_relabel b b0 p es :
  trace (setLoop b p) (onLoop b <$> es)
  = option_map (List.map (relabel b)) (trace (setLoop b0 p) (onLoop b0 <$> es)).
Proof.
  unfold trace, mount.
  set (init := {| props := setLoop b0 p; count := start (setLoop b0 p);
                  isVisible := false; mounted := true; cleanup := None;
                  intervals := ∅; nextId := 0 |}).
  change {| props := setLoop b p; count := start (setLoop b p);
            isVisible := false; mounted := true; cleanup := None;
            intervals := ∅; nextId := 0 |} with (relabel b init).
  rewrite commit_relabel.
  destruct (commit updateLimit true true init) as [s0|] eqn:Hm; [|reflexivity].
  cbn [option_map mbind option_bind]. rewrite history_relabel.
  apply commit_props in Hm. by rewrite Hm.
Qed.

(** ** Steps, rounding and digits *)

(** *** The number of steps and the delay *)

Lemma totalSteps_whole d :
  exists n : Z, (1 <= n)%Z ∧ totalSteps d = Q2Qc (inject_Z n)
    ∧ (n = 1%Z ∨ n = Qceiling (d / Q2Qc 100)%Qc).
Proof.
  unfold totalSteps, Math_max, Math_ceil. case_decide as H.
  - exists (Qceiling (d / Q2Qc 100)%Qc). split; [|split; [done|by right]].
    revert H. qc. change 1%Q with (inject_Z 1). rewrite <- Zle_Qle. done.
  - exists 1%Z. split; [done|]. split; [|by left]. by apply Q2Qc_eq.
Qed.

Lemma totalSteps_pos d : 0 < totalSteps d.
Proof. pose proof (totalSteps_ge1 d) as H. revert H. qc. lra. Qed.

Lemma totalSteps_nonzero d : totalSteps d ≠ 0.
Proof.
  intros H. pose proof (totalSteps_pos d) as Hp. rewrite H in Hp.
  revert Hp. qc. lra.
Qed.


Lemma Qcdiv_le_iff a b c : 0 < c -> (a / c ≤ b <-> a ≤ b * c).
Proof.
  intros Hc. assert (Hn : c ≠ 0) by (intros ->; revert Hc; qc; lra).
  split; intros H.
  - replace a with (a / c * c) by (field; done).
    apply Qcmult_le_compat_r; [done|]. revert Hc. qc. lra.
  - replace b with (b * c / c) by (field; done).
    unfold Qcdiv. apply Qcmult_le_compat_r; [done|].
    apply Qcinv_pos in Hc. revert Hc. qc. lra.
Qed.

Lemma Qcdiv_lt_iff a b c : 0 < c -> (b < a / c <-> b * c < a).
Proof.
  intros Hc. split; intros H.
  - apply Qcnot_le_lt. intros Hle. apply (Qcdiv_le_iff _ _ _ Hc) in Hle.
    revert H Hle. qc. lra.
  - apply Qcnot_le_lt. intros Hle. apply (Qcdiv_le_iff _ _ _ Hc) in Hle.
    revert H Hle. qc. lra.
Qed.




(** *** Numbers of two decimals *)

Lemma twoDecimals_plus x y : twoDecimals x -> twoDecimals y -> twoDecimals (x + y).
Proof.
  intros [a ->] [b ->]. exists (a + b)%Z. apply Qc_is_canon. qc.
  unfold Qeq, Qplus. simpl. lia.
Qed.

Lemma twoDecimals_times (k : Z) x : twoDecimals x -> twoDecimals (Q2Qc (inject_Z k) * x).
Proof.
  intros [a ->]. exists (k * a)%Z. apply Qc_is_canon. qc.
  unfold Qeq, Qmult, inject_Z. simpl. lia.
Qed.

Lemma rounded2_twoDecimals x : twoDecimals (rounded 2 x).
Proof.
  destruct (rounded_grid 2 x) as [z ->]. exists z. apply Q2Qc_eq.
  unfold Qeq, Qdiv, Qmult, Qinv, inject_Z. simpl. lia.
Qed.

Lemma twoDecimals_lt x y : twoDecimals x -> twoDecimals y -> x < y -> x + Q2Qc (1 # 100) ≤ y.
Proof.
  intros [a ->] [b ->]. qc. unfold Qlt, Qle, Qplus. simpl. lia.
Qed.

(** An addend below 0.005 is rounded away. *)
Lemma rounded2_stall c d :
  twoDecimals c -> 0 ≤ d -> d < Q2Qc (1 # 200) -> rounded 2 (c + d) = c.
Proof.
  intros Hc H0 Hd.
  assert (H1 : c ≤ rounded 2 (c + d)).
  { apply rounded2_ge; [done|]. revert H0. qc. lra. }
  pose proof (rounded2_close (c + d)) as [_ H2].
  apply Qcle_antisym; [|done]. apply Qcnot_lt_le. intros Hlt.
  apply twoDecimals_lt in Hlt; [|done|apply rounded2_twoDecimals].
  revert Hlt H2 Hd. generalize (rounded 2 (c + d)). intros r. qc. lra.
Qed.

Lemma Qcabs_lt x b : - b < x -> x < b -> Qcabs x < b.
Proof. unfold Qcabs. case_decide; qc; lra. Qed.

Lemma increment_le p : start p ≤ end_ p -> increment p ≤ end_ p - start p.
Proof.
  intros H. unfold increment. apply Qcdiv_le_iff; [apply totalSteps_pos|].
  pose proof (totalSteps_ge1 (duration p)) as H1.
  revert H H1. generalize (totalSteps (duration p)). intros n. qc. nra.
Qed.

Lemma increment_pos p : start p < end_ p -> 0 < increment p.
Proof.
  intros H. unfold increment. apply Qcdiv_lt_iff; [apply totalSteps_pos|].
  revert H. qc. lra.
Qed.

Lemma increment_ge p : end_ p ≤ start p -> end_ p - start p ≤ increment p.
Proof.
  intros H.
  assert (Hq : increment p * totalSteps (duration p) = end_ p - start p).
  { unfold increment. field. apply totalSteps_nonzero. }
  pose proof (totalSteps_ge1 (duration p)) as H1.
  assert (H0 : increment p ≤ 0).
  { apply Qcnot_lt_le. intros Hlt.
    assert (Hpos : 0 < increment p * totalSteps (duration p)).
    { pose proof (totalSteps_pos (duration p)) as Hp. revert Hlt Hp.
      generalize (totalSteps (duration p)) (increment p). intros n q. qc. nra. }
    rewrite Hq in Hpos. revert H Hpos. qc. lra. }
  rewrite <- Hq. revert H0 H1.
  generalize (totalSteps (duration p)) (increment p). intros n q. qc. nra.
Qed.

(** *** Ticks of the live interval *)

(** A tick either finds no interval under its id and changes nothing, or
    applies the updater of the current props to [count]. *)
Lemma tick_cases t i t' :
  owned t -> step (Tick i) t = Some t' ->
  owned t' ∧ mounted t' = mounted t ∧ props t' = props t
  ∧ isVisible t' = isVisible t
  ∧ ((intervals t !! i = None ∧ t' = t)
     ∨ (intervals t !! i = Some (timerOf (props t))
        ∧ updateCount (start (props t)) (end_ (props t)) (duration (props t))
            (count t) = Some (count t'))).
Proof.
  intros Ho Hs. split; [by eapply step_owned|].
  destruct (intervals t !! i) as [iv|] eqn:Hi.
  2:{ cbn [step] in Hs. rewrite Hi in Hs. injection Hs as <-. tauto. }
  destruct (owned_lookup _ _ _ Ho Hi) as (_ & -> & Hm & _).
  pose proof (step_tick_count _ _ _ _ Ho Hi Hs) as (Hc & Hp & Hv).
  rewrite call_timerOf in Hc.
  apply (step_mounted _ _ _ Ho Hm) in Hs. lazy beta iota in Hs. rewrite Hi in Hs.
  destruct Hs as (c & _ & Hs).
  split; [|by auto].
  case_decide; [by subst|]. subst t'.
  destruct (refresh_fields (withCount c t)) as (_ & _ & _ & -> & _). done.
Qed.

(** While the gate is open the cleanup holds the registered interval. *)
Lemma live_interval s :
  owned s -> mounted s = true -> gate (props s) (isVisible s) = true ->
  exists i, cleanup s = Some i ∧ intervals s !! i = Some (timerOf (props s)).
Proof.
  intros Ho Hm Hg. unfold owned in Ho. destruct (cleanup s) as [i|].
  - exists i. split; [done|]. destruct Ho as (-> & _). apply lookup_singleton_eq.
  - destruct Ho as [_ Ho]. rewrite Ho in Hg; done.
Qed.

(** An invariant of the updater holds for [count] along every run with
    fixed props, and the run exists. *)
Lemma counts_inv (Q : Qc -> Prop) p es :
  forallb keepsProps es = true -> Q (start p) ->
  (forall c c', Q c -> updateCount (start p) (end_ p) (duration p) c = Some c' -> Q c') ->
  exists h, trace p es = Some h
    ∧ Forall (fun s => owned s ∧ props s = p ∧ Q (count s)) h.
Proof.
  intros Hes H0 Hup. unfold trace.
  destruct (mount_spec p) as (s0 & Hm0 & Ho0 & Hmt0 & Hp0 & Hc0 & Hv0).
  rewrite Hm0. cbn [mbind option_bind].
  destruct (history_inv (fun t => props t = p ∧ Q (count t)) es s0)
    as (h & Hh & HF); [done|by rewrite Hc0| |].
  - intros e t t' He Ho [Hp Hc] Hs.
    assert (He' : keepsProps e = true).
    { rewrite forallb_forall in Hes. apply Hes. by apply list_elem_of_In. }
    split; [by rewrite (step_keepsProps _ _ _ Ho He' Hs)|].
    destruct (mounted t) eqn:Hmt.
    2:{ rewrite step_unmounted in Hs by done. by injection Hs as <-. }
    destruct e as [i|b|q|]; [| |done|].
    + destruct (tick_cases _ _ _ Ho Hs) as (_ & _ & _ & _ & [[_ ->]|[_ Hu]]); [done|].
      rewrite Hp in Hu. by eapply Hup.
    + apply step_intersect in Hs as (_ & _ & _ & Hsame & Hdiff); [|done..].
      destruct (decide (b = isVisible t)) as [Hb|Hb]; [by rewrite Hsame|].
      destruct (Hdiff Hb) as (_ & -> & _). unfold restartValue. simpl.
      rewrite Hp. by destruct (_ && _).
    + apply (step_mounted _ _ _ Ho Hmt) in Hs. lazy beta iota in Hs.
      destruct Hs as (_ & _ & _ & _ & -> & _). done.
  - exists h. split; [done|]. eapply Forall_impl; [exact HF|].
    intros t [Ho [Hp Hc]]. done.
Qed.

(** One application of the updater when [start <= end]. *)
Lemma updateCount_ascending p c c' :
  start p ≤ end_ p -> twoDecimals (start p) -> twoDecimals (end_ p) ->
  - limit21 < start p -> end_ p + (end_ p - start p) < limit21 ->
  start p ≤ c -> c ≤ end_ p -> twoDecimals c ->
  updateCount (start p) (end_ p) (duration p) c = Some c' ->
  c ≤ c' ∧ c' ≤ end_ p ∧ twoDecimals c'.
Proof.
  intros Hse Hs2 He2 Hlo Hhi H1 H2 Hc2 Hup.
  pose proof (increment_nonneg p Hse) as Hi0.
  pose proof (increment_le p Hse) as Hi1.
  rewrite updateCount_rounded in Hup.
  2:{ apply Qcabs_lt; revert Hlo Hhi H1 H2 Hi0 Hi1; qc; lra. }
  injection Hup as <-.
  assert (Hge : c ≤ rounded 2 (c + increment p)).
  { apply rounded2_ge; [done|]. revert Hi0. qc. lra. }
  case_decide as Hd; [done|].
  split; [done|]. split; [|apply rounded2_twoDecimals].
  apply Qcnot_le_lt in Hd. revert Hd. qc. lra.
Qed.

(** *** Sample states *)


Lemma sampleDown_reachable : reachable sampleDown.
Proof. apply (reach_mount (config 10 0 1000 false false)). vm_compute. reflexivity. Qed.

Lemma sampleBelow_reachable : reachable sampleBelow.
Proof.
  apply (reach_step (Tick 0) sampleDown); [apply sampleDown_reachable|].
  vm_compute. reflexivity.
Qed.

(** *** Steps that need no rounding *)

Lemma whole_succ (k : nat) :
  Q2Qc (inject_Z (Z.of_nat (S k))) = Q2Qc (inject_Z (Z.of_nat k)) + 1.
Proof.
  apply Qc_is_canon. qc. rewrite Nat2Z.inj_succ. unfold Z.succ.
  rewrite inject_Z_plus. reflexivity.
Qed.

Lemma whole_nat_nonneg (k : nat) : 0 ≤ Q2Qc (inject_Z (Z.of_nat k)).
Proof. apply whole_nonneg. lia. Qed.

Lemma increment_steps p : increment p * totalSteps (duration p) = end_ p - start p.
Proof. unfold increment. field. apply totalSteps_nonzero. Qed.

Lemma increment_steps_Q p :
  (this (increment p) * this (totalSteps (duration p))
   == this (end_ p) - this (start p))%Q.
Proof.
  assert (H : (this (increment p * totalSteps (duration p))
               == this (end_ p - start p))%Q)
    by (by rewrite increment_steps).
  revert H. generalize (totalSteps (duration p)) (increment p). intros n q.
  qc. lra.
Qed.

Lemma end_twoDecimals p :
  twoDecimals (start p) -> twoDecimals (increment p) -> twoDecimals (end_ p).
Proof.
  intros Hs Hi. destruct (totalSteps_whole (duration p)) as (n & _ & Hn & _).
  replace (end_ p) with (start p + Q2Qc (inject_Z n) * increment p).
  - apply twoDecimals_plus; [done|]. by apply twoDecimals_times.
  - rewrite <- Hn, Qcmult_comm, increment_steps. ring.
Qed.

Lemma afterSteps_succ p k c' :
  start p < end_ p -> twoDecimals (start p) -> twoDecimals (increment p) ->
  - limit21 < start p -> end_ p + increment p < limit21 ->
  updateCount (start p) (end_ p) (duration p) (afterSteps p k) = Some c' ->
  c' = afterSteps p (S k).
Proof.
  intros Hlt Hs2 Hi2 Hlo Hhi Hup.
  pose proof (increment_pos p Hlt) as Hi0.
  pose proof (increment_steps_Q p) as Hn.
  pose proof (end_twoDecimals p Hs2 Hi2) as He2.
  pose proof (whole_nat_nonneg k) as Hk.
  assert (H2 : twoDecimals (afterSteps p k)).
  { unfold afterSteps. case_decide; [|done].
    apply twoDecimals_plus; [done|]. by apply twoDecimals_times. }
  assert (Hr : start p ≤ afterSteps p k ∧ afterSteps p k ≤ end_ p).
  { unfold afterSteps. case_decide as Hd.
    - clear - Hd Hk Hi0 Hn. revert Hd Hk Hi0 Hn.
      generalize (Q2Qc (inject_Z (Z.of_nat k))).
      generalize (totalSteps (duration p)) (increment p). intros n q j. qc. nra.
    - clear - Hlt. revert Hlt. qc. lra. }
  rewrite updateCount_rounded in Hup.
  2:{ destruct Hr as [Hr1 Hr2]. clear - Hr1 Hr2 Hlo Hhi Hi0.
      apply Qcabs_lt; revert Hr1 Hr2 Hlo Hhi Hi0; qc; lra. }
  apply (inj Some) in Hup. subst c'.
  rewrite rounded2_fix by (by apply twoDecimals_plus).
  unfold afterSteps. rewrite whole_succ.
  replace (start p + (Q2Qc (inject_Z (Z.of_nat k)) + 1) * increment p)
    with (start p + Q2Qc (inject_Z (Z.of_nat k)) * increment p + increment p) by ring.
  destruct (decide (Q2Qc (inject_Z (Z.of_nat k)) ≤ totalSteps (duration p))) as [Hd|Hd].
  - destruct (decide (Q2Qc (inject_Z (Z.of_nat k)) + 1 ≤ totalSteps (duration p)))
      as [Hd1|Hd1].
    + case_decide as Hc; [|done]. apply Qcle_antisym; [done|].
      clear - Hd1 Hi0 Hn. revert Hd1 Hi0 Hn.
      generalize (Q2Qc (inject_Z (Z.of_nat k))).
      generalize (totalSteps (duration p)) (increment p). intros n q j. qc. nra.
    + rewrite decide_True; [done|]. apply Qcnot_le_lt in Hd1.
      clear - Hd1 Hi0 Hn. revert Hd1 Hi0 Hn.
      generalize (Q2Qc (inject_Z (Z.of_nat k))).
      generalize (totalSteps (duration p)) (increment p). intros n q j. qc. nra.
  - destruct (decide (Q2Qc (inject_Z (Z.of_nat k)) + 1 ≤ totalSteps (duration p)))
      as [Hd1|Hd1].
    { exfalso. apply Qcnot_le_lt in Hd. clear - Hd Hd1. revert Hd Hd1. qc. lra. }
    rewrite decide_True; [done|]. clear - Hi0. revert Hi0. qc. lra.
Qed.

Lemma ticks_afterSteps p k j s :
  startOnViewport p = false ->
  start p < end_ p -> twoDecimals (start p) -> twoDecimals (increment p) ->
  - limit21 < start p -> end_ p + increment p < limit21 ->
  owned s -> mounted s = true -> props s = p -> isVisible s = false ->
  count s = afterSteps p j ->
  exists s', ticks k s = Some s' ∧ count s' = afterSteps p (j + k).
Proof.
  intros Hv Hlt Hs2 Hi2 Hlo Hhi. revert j s.
  induction k as [|k IH]; intros j s Ho Hm Hp Hvis Hc.
  { exists s. split; [done|]. by rewrite Nat.add_0_r. }
  assert (Hg : gate (props s) (isVisible s) = true).
  { unfold gate. rewrite Hp, Hv, Hvis. simpl. apply bool_decide_eq_true_2.
    intros Heq. rewrite Heq in Hlt. revert Hlt. qc. lra. }
  destruct (live_interval s Ho Hm Hg) as (i & Hcl & Hi).
  cbn [ticks]. unfold tickLive. rewrite Hcl.
  destruct (step_total (Tick i) s Ho) as [s1 Hs1]. rewrite Hs1.
  cbn [mbind option_bind].
  destruct (tick_cases _ _ _ Ho Hs1) as (Ho1 & Hm1 & Hp1 & Hv1 & [[Hn _]|[_ Hu]]);
    [congruence|].
  rewrite Hp, Hc in Hu. apply afterSteps_succ in Hu; [|done..].
  destruct (IH (S j) s1) as (s' & Hs' & Hc'); [done|congruence..|].
  exists s'. split; [done|]. rewrite Hc'. f_equal. lia.
Qed.

(** *** Steps above the rounding threshold *)

(** One application of the updater when the increment is above 0.005. *)
Lemma updateCount_progress p c c' :
  start p ≤ end_ p -> twoDecimals (start p) -> twoDecimals (end_ p) ->
  Q2Qc (1 # 200) < increment p ->
  - limit21 < start p -> end_ p + (end_ p - start p) < limit21 ->
  start p ≤ c -> c ≤ end_ p -> twoDecimals c ->
  updateCount (start p) (end_ p) (duration p) c = Some c' ->
  c' = end_ p ∨ c + Q2Qc (1 # 100) ≤ c'.
Proof.
  intros Hse Hs2 He2 Hi Hlo Hhi H1 H2 Hc2 Hup.
  pose proof (increment_le p Hse) as Hi1.
  rewrite updateCount_rounded in Hup.
  2:{ apply Qcabs_lt; revert Hlo Hhi H1 H2 Hi Hi1; qc; lra. }
  apply (inj Some) in Hup. subst c'.
  case_decide as Hd; [by left|]. right.
  apply twoDecimals_lt; [done|apply rounded2_twoDecimals|].
  pose proof (rounded2_close (c + increment p)) as [Hr _].
  revert Hr Hi. generalize (rounded 2 (c + increment p)). intros r. qc. lra.
Qed.

Lemma ticks_progress p k s :
  startOnViewport p = false ->
  start p < end_ p -> twoDecimals (start p) -> twoDecimals (end_ p) ->
  Q2Qc (1 # 200) < increment p ->
  - limit21 < start p -> end_ p + (end_ p - start p) < limit21 ->
  owned s -> mounted s = true -> props s = p -> isVisible s = false ->
  start p ≤ count s -> count s ≤ end_ p -> twoDecimals (count s) ->
  exists s', ticks k s = Some s' ∧ count s ≤ count s' ∧ count s' ≤ end_ p
    ∧ (count s' = end_ p
       ∨ count s + Q2Qc (inject_Z (Z.of_nat k)) * Q2Qc (1 # 100) ≤ count s').
Proof.
  intros Hv Hlt Hs2 He2 Hi Hlo Hhi. revert s.
  assert (Hse : start p ≤ end_ p) by (revert Hlt; qc; lra).
  induction k as [|k IH]; intros s Ho Hm Hp Hvis H1 H2 Hc2.
  { exists s. split; [done|]. split; [apply Qcle_refl|]. split; [done|]. right.
    change (Q2Qc (inject_Z (Z.of_nat 0))) with 0.
    replace (count s + 0 * Q2Qc (1 # 100)) with (count s) by ring.
    apply Qcle_refl. }
  assert (Hg : gate (props s) (isVisible s) = true).
  { unfold gate. rewrite Hp, Hv, Hvis. simpl. apply bool_decide_eq_true_2.
    intros Heq. rewrite Heq in Hlt. revert Hlt. qc. lra. }
  destruct (live_interval s Ho Hm Hg) as (i & Hcl & Hl).
  cbn [ticks]. unfold tickLive. rewrite Hcl.
  destruct (step_total (Tick i) s Ho) as [s1 Hs1]. rewrite Hs1.
  cbn [mbind option_bind].
  destruct (tick_cases _ _ _ Ho Hs1) as (Ho1 & Hm1 & Hp1 & Hv1 & [[Hn _]|[_ Hu]]);
    [congruence|].
  rewrite Hp in Hu.
  destruct (updateCount_ascending p _ _ Hse Hs2 He2 Hlo Hhi H1 H2 Hc2 Hu)
    as (Ha & Hb & Hc).
  pose proof (updateCount_progress p _ _ Hse Hs2 He2 Hi Hlo Hhi H1 H2 Hc2 Hu) as Hpr.
  destruct (IH s1) as (s' & Hs' & Hd1 & Hd2 & Hd3); [done|congruence..| | |done|].
  { revert H1 Ha. qc. lra. }
  { done. }
  exists s'. split; [done|]. split; [revert Ha Hd1; qc; lra|]. split; [done|].
  rewrite whole_succ.
  destruct Hd3 as [Hd3|Hd3]; [by left|].
  destruct Hpr as [Hpr|Hpr].
  - left. apply Qcle_antisym; [done|]. rewrite <- Hpr. done.
  - right. revert Hd3 Hpr.
    generalize (Q2Qc (inject_Z (Z.of_nat k))) (count s) (count s1) (count s').
    intros a b c d Hx Hy. clear - Hx Hy. qc. lra.
Qed.

(** *** Renders *)

Lemma step_render p s s' :
  owned s -> mounted s = true -> step (Render p) s = Some s' ->
  owned s' ∧ mounted s' = true ∧ props s' = p ∧ isVisible s' = isVisible s
  ∧ count s' = restartValue
        (bool_decide (restartDeps p (isVisible s) ≠ restartDeps (props s) (isVisible s)))
        (withProps p s).
Proof.
  intros Ho Hm Hs. apply (step_mounted _ _ _ Ho Hm) in Hs. lazy beta iota in Hs.
  rewrite updateLimit_eq in Hs. apply commit_owned in Hs; [tauto|done|].
  unfold ready. case_bool_decide as Hd.
  - destruct (owned_loose s Ho Hm). by split.
  - apply owned_withProps; [done|].
    by destruct (decide (timerDeps p (count s) (isVisible s)
                         = timerDeps (props s) (count s) (isVisible s))).
Qed.

(** *** Whole numbers in the formatter *)

Lemma Math_round_whole c : Math_round c = Q2Qc (inject_Z (Qfloor (this c + (1 # 2)))).
Proof. unfold Math_round. apply f_equal, f_equal, Qfloor_comp. qc. reflexivity. Qed.

Lemma rounded_whole f (z : Z) : rounded f (Q2Qc (inject_Z z)) = Q2Qc (inject_Z z).
Proof.
  destruct (Qcabs_whole z) as [Habs Hneg]. unfold rounded.
  rewrite Habs, nearest_scale_whole by lia.
  assert (Hv : Q2Qc (inject_Z (Z.of_N (Z.to_N (Z.abs z) * pow10 f))
                     / inject_Z (Z.of_N (pow10 f)))
               = Q2Qc (inject_Z (Z.abs z))).
  { apply Q2Qc_eq. rewrite N2Z.inj_mul, Z2N.id, inject_Z_mult by lia.
    field. pose proof (pow10_pos f) as Hp.
    change 0%Q with (inject_Z 0). rewrite inject_Z_injective. lia. }
  rewrite Hv. case_decide as H.
  - apply Hneg in H. rewrite Qcopp_Q2Qc. apply Q2Qc_eq.
    rewrite <- inject_Z_opp. by rewrite Z.abs_neq, Z.opp_involutive by lia.
  - rewrite Z.abs_eq; [done|]. apply Z.le_ngt. by rewrite <- Hneg.
Qed.

Lemma Math_round_close c :
  c - Q2Qc (1 # 2) < Math_round c ∧ Math_round c ≤ c + Q2Qc (1 # 2).
Proof.
  unfold Math_round.
  pose proof (Qfloor_le (c + Q2Qc (1 # 2))) as H1.
  pose proof (Qlt_floor (c + Q2Qc (1 # 2))) as H2.
  rewrite inject_Z_plus in H2. change (inject_Z 1) with 1%Q in H2.
  revert H1 H2. generalize (Qfloor (c + Q2Qc (1 # 2))). intros z H1 H2.
  split; qc; lra.
Qed.

(** *** Characters of the grouped digits *)


Lemma occurs_uint c d :
  digitOf c = None -> occurs c (NilEmpty.string_of_uint d) = false.
Proof.
  intros Hc. unfold digitOf in Hc.
  induction d as [|d IH|d IH|d IH|d IH|d IH|d IH|d IH|d IH|d IH|d IH];
    [done|..]; cbn [NilEmpty.string_of_uint occurs]; rewrite IH, orb_false_r;
    rewrite Ascii.eqb_sym; by repeat case_match.
Qed.

Lemma occurs_groupDigits c s :
  c ≠ ","%char -> occurs c (groupDigits s) = occurs c s.
Proof.
  intros Hc. induction s as [|a s IH]; [done|]. cbn [groupDigits].
  case_match; [|by cbn [occurs]; rewrite IH].
  change ("," +:+ groupDigits s) with (String "," (groupDigits s)).
  cbn [occurs]. rewrite IH.
  replace (Ascii.eqb "," c) with false; [done|].
  symmetry. apply Ascii.eqb_neq. congruence.
Qed.

Lemma without_app c a b : without c (a +:+ b) = without c a +:+ without c b.
Proof.
  induction a as [|x a IH]; [done|].
  change (without c (String x (a +:+ b)) = without c (String x a) +:+ without c b).
  cbn [without]. rewrite IH. by case_match.
Qed.

Lemma without_absent c s : occurs c s = false -> without c s = s.
Proof.
  induction s as [|a s IH]; [done|]. cbn [occurs without].
  intros [H1 H2]%orb_false_iff. by rewrite H1, IH.
Qed.

Lemma without_groupDigits s : without "," (groupDigits s) = without "," s.
Proof.
  induction s as [|a s IH]; [done|]. cbn [groupDigits].
  case_match; [|by cbn [without]; rewrite IH].
  change ("," +:+ groupDigits s) with (String "," (groupDigits s)).
  cbn [without]. rewrite IH. change (Ascii.eqb "," ",") with true. done.
Qed.

Lemma replaceAll_back c d s :
  occurs d s = false -> replaceAll d c (replaceAll c d s) = s.
Proof.
  induction s as [|a s IH]; [done|]. cbn [occurs replaceAll].
  intros [H1 H2]%orb_false_iff. rewrite IH by done. f_equal.
  destruct (Ascii.eqb_spec a c) as [->|Hac].
  - by rewrite Ascii.eqb_refl.
  - by rewrite H1.
Qed.

(** [toLocaleString] of a whole number: sign and grouped digits. *)
Lemma toLocaleString_whole (z : Z) :
  toLocaleString (Q2Qc (inject_Z z))
  = (if decide (z < 0)%Z then "-" else "") +:+ groupDigits (digits (Z.abs_N z)).
Proof.
  destruct (Qcabs_whole z) as [Habs Hneg].
  assert (Hs : (if decide (Q2Qc (inject_Z z) < 0) then "-" else "")
               = (if decide (z < 0)%Z then "-" else "")).
  { destruct (decide (Q2Qc (inject_Z z) < 0)) as [H|H], (decide (z < 0)%Z) as [H'|H'];
      try done; exfalso; tauto. }
  unfold toLocaleString. rewrite Hs, Habs, nearest_scale_whole by lia.
  replace (Z.to_N (Z.abs z)) with (Z.abs_N z) by (by destruct z).
  change (pow10 3) with 1000%N.
  rewrite N.div_mul, N.Div0.mod_mul by done.
  change (stripZeros (fraction 3 0)) with EmptyString. cbn iota.
  f_equal. generalize (groupDigits (digits (Z.abs_N z))). intros s.
  induction s as [|a s IH]; [done|].
  change (String a (s +:+ "") = String a s). by rewrite IH.
Qed.

Lemma occurs_sign c (neg : bool) s :
  c ≠ "-"%char -> occurs c ((if neg then "-" else "") +:+ s) = occurs c s.
Proof.
  intros Hc. destruct neg; [|done].
  change ("-" +:+ s) with (String "-" s). cbn [occurs].
  replace (Ascii.eqb "-" c) with false; [done|].
  symmetry. apply Ascii.eqb_neq. congruence.
Qed.

Lemma occurs_replaceAll c d s : c ≠ d -> occurs c (replaceAll c d s) = false.
Proof.
  intros Hcd. induction s as [|a s IH]; [done|]. cbn [replaceAll occurs].
  rewrite IH, orb_false_r. destruct (Ascii.eqb_spec a c) as [->|Hac].
  - apply Ascii.eqb_neq. congruence.
  - by apply Ascii.eqb_neq.
Qed.

(** *** Groups of three digits *)

Lemma length_append (a b : string) :
  String.length (a +:+ b) = (String.length a + String.length b)%nat.
Proof.
  induction a as [|x a IH]; [done|].
  change (S (String.length (a +:+ b)) = S (String.length a + String.length b)).
  by rewrite IH.
Qed.

Lemma groupDigits_short s : (String.length s ≤ 3)%nat -> groupDigits s = s.
Proof.
  destruct s as [|a [|b [|c [|d s]]]]; intros H; try done.
  cbn [String.length] in H. lia.
Qed.

Lemma groupDigits_app s t :
  s ≠ EmptyString -> String.length t = 3%nat ->
  groupDigits (s +:+ t) = groupDigits s +:+ "," +:+ t.
Proof.
  intros Hs Ht. induction s as [|x r IH]; [done|]. clear Hs.
  change (String x r +:+ t) with (String x (r +:+ t)). cbn [groupDigits].
  rewrite length_append, Ht.
  destruct r as [|y r].
  - change (EmptyString +:+ t) with t. rewrite groupDigits_short by lia.
    cbn. done.
  - rewrite IH by done.
    replace ((0 <? String.length (String y r) + 3)%nat) with true
      by (symmetry; apply Nat.ltb_lt; lia).
    replace ((0 <? String.length (String y r))%nat) with true
      by (symmetry; apply Nat.ltb_lt; cbn [String.length]; lia).
    replace ((String.length (String y r) + 3) mod 3)%nat
      with (String.length (String y r) mod 3)%nat.
    2:{ rewrite <- (Nat.Div0.mod_add _ 1 3). f_equal. }
    cbn [andb]. by case_match.
Qed.

(** *** The digits of [1000 q + r] *)

Lemma to_list_app_inj d d' e :
  to_list e = (to_list d ++ to_list d')%list -> Decimal.app d d' = e.
Proof. intros H. apply to_list_inj. by rewrite app_spec. Qed.

Lemma app_digit (D : Decimal.uint -> Decimal.uint) x d d' :
  (forall u, to_list (D u) = (x :: to_list u)%list) ->
  Decimal.app (D d) d' = D (Decimal.app d d').
Proof. intros H. apply to_list_inj. by rewrite app_spec, !H, app_spec. Qed.

Lemma string_of_uint_app d d' :
  NilEmpty.string_of_uint (Decimal.app d d')
  = NilEmpty.string_of_uint d +:+ NilEmpty.string_of_uint d'.
Proof.
  induction d as [|d IH|d IH|d IH|d IH|d IH|d IH|d IH|d IH|d IH|d IH];
    [by rewrite DecimalFacts.app_nil_l|..];
    erewrite app_digit by (intros u; reflexivity);
    cbn [NilEmpty.string_of_uint]; by rewrite IH.
Qed.

Lemma length_string_of_uint d :
  String.length (NilEmpty.string_of_uint d) = Decimal.nb_digits d.
Proof. induction d; cbn [NilEmpty.string_of_uint String.length Decimal.nb_digits]; congruence. Qed.

Lemma rev_app_uint d d' :
  Decimal.rev (Decimal.app d d') = Decimal.revapp d' (Decimal.rev d).
Proof.
  apply to_list_inj.
  rewrite rev_spec, app_spec, revapp_spec, rev_spec.
  by rewrite List.rev_append_rev, List.rev_app_distr.
Qed.

Lemma of_uint_app d d' :
  N.of_uint (Decimal.app d d')
  = (N.of_uint d * 10 ^ Unsigned.usize d' + N.of_uint d')%N.
Proof.
  unfold N.of_uint. rewrite !Unsigned.of_uint_alt, rev_app_uint.
  rewrite Unsigned.of_lu_revapp. lia.
Qed.

Lemma headed_to_uint q : (0 < q)%N -> headed (N.to_uint q).
Proof.
  intros Hq. pose proof (DecimalN.Unsigned.to_of (N.to_uint q)) as H.
  rewrite DecimalN.Unsigned.of_to in H.
  destruct (N.to_uint q) as [|d| | | | | | | | | ] eqn:Hd; try done.
  symmetry in H. rewrite unorm_D0 in H.
  destruct (Decimal.nzhead d) eqn:Hn;
    [|rewrite unorm_nzhead in H by congruence; by destruct (nzhead_nonzero d d)..].
  assert (Hz : Decimal.unorm d = Decimal.D0 Decimal.Nil) by (by apply unorm_0).
  rewrite Hz in H. injection H as <-.
  pose proof (DecimalN.Unsigned.of_to q) as Ho. rewrite Hd in Ho.
  cbn in Ho. lia.
Qed.

Lemma unorm_headed d d' :
  headed d -> Decimal.unorm (Decimal.app d d') = Decimal.app d d'.
Proof.
  intros Hd. apply to_list_inj. rewrite unorm_spec, app_spec.
  destruct d; try done; reflexivity.
Qed.

Lemma digits_thousands (q r : N) :
  (0 < q)%N -> (r < 1000)%N ->
  digits (q * 1000 + r) = digits q +:+ fraction 3 r.
Proof.
  intros Hq Hr. unfold digits, fraction. rewrite <- string_of_uint_app. f_equal.
  rewrite <- (unorm_headed _ _ (headed_to_uint q Hq)).
  rewrite <- DecimalN.Unsigned.to_of. f_equal.
  rewrite of_uint_app, DecimalN.Unsigned.of_to, usize_lastDigits, of_uint_lastDigits.
  change (pow10 3) with 1000%N. change (10 ^ N.of_nat 3)%N with 1000%N.
  by rewrite N.mod_small.
Qed.

Lemma digits_short (n : N) : (n < 1000)%N -> (String.length (digits n) ≤ 3)%nat.
Proof.
  intros Hn. unfold digits. rewrite length_string_of_uint.
  replace (N.to_uint n) with (Decimal.unorm (lastDigits 3 n)).
  - etrans; [apply nb_digits_unorm|by rewrite nb_digits_lastDigits].
    intros H. apply (f_equal Decimal.nb_digits) in H.
    by rewrite nb_digits_lastDigits in H.
  - rewrite <- DecimalN.Unsigned.to_of, of_uint_lastDigits.
    change (pow10 3) with 1000%N. by rewrite N.mod_small.
Qed.

Lemma comma_natural it (n : N) :
  formatNumber comma it (Q2Qc (inject_Z (Z.of_N n))) = groupDigits (digits n).
Proof.
  cbn [formatNumber]. rewrite toLocaleString_whole.
  rewrite decide_False by lia. by rewrite Zabs2N.id.
Qed.

Lemma replaceAll_app c d a b :
  replaceAll c d (a +:+ b) = replaceAll c d a +:+ replaceAll c d b.
Proof.
  induction a as [|x a IH]; [done|].
  change (replaceAll c d (String x (a +:+ b))
          = String (if Ascii.eqb x c then d else x) (replaceAll c d a +:+ replaceAll c d b)).
  cbn [replaceAll]. by rewrite IH.
Qed.

Lemma replaceAll_absent c d s : occurs c s = false -> replaceAll c d s = s.
Proof.
  induction s as [|a s IH]; [done|]. cbn [occurs replaceAll].
  intros [H1 H2]%orb_false_iff. by rewrite H1, IH.
Qed.

(** *** Whole numbers and magnitudes *)

Lemma whole_le (a b : Z) : whole a ≤ whole b <-> (a <= b)%Z.
Proof. unfold whole. qc. by rewrite <- Zle_Qle. Qed.

Lemma whole_lt (a b : Z) : whole a < whole b <-> (a < b)%Z.
Proof. unfold whole. qc. by rewrite <- Zlt_Qlt. Qed.

Lemma whole_plus (a b : Z) : whole a + whole b = whole (a + b).
Proof. unfold whole. apply Qc_is_canon. qc. by rewrite inject_Z_plus. Qed.

Lemma whole_minus (a b : Z) : whole a - whole b = whole (a - b).
Proof.
  unfold whole. apply Qc_is_canon. qc.
  replace (a - b)%Z with (a + - b)%Z by lia.
  by rewrite inject_Z_plus, inject_Z_opp.
Qed.

Lemma whole_mult (a b : Z) : whole a * whole b = whole (a * b).
Proof. unfold whole. apply Qc_is_canon. qc. by rewrite inject_Z_mult. Qed.

Lemma whole_twoDecimals (z : Z) : twoDecimals (whole z).
Proof.
  exists (100 * z)%Z. unfold whole. apply Q2Qc_eq.
  unfold Qeq, inject_Z. simpl. lia.
Qed.

Lemma whole_inj (a b : Z) : whole a = whole b -> a = b.
Proof.
  intros H. apply Z.le_antisymm; apply whole_le; rewrite H; apply Qcle_refl.
Qed.

Lemma whole_div (a n : Z) :
  (n ≠ 0)%Z -> (n | a)%Z -> whole a / whole n = whole (a / n).
Proof.
  intros Hn [q ->]. rewrite Z.div_mul by done. rewrite <- whole_mult.
  field. intros H. apply Hn. by apply whole_inj.
Qed.

(** A duration of [100 n] ms is divided into [n] steps. *)
Lemma totalSteps_hundreds (n : Z) : (1 <= n)%Z -> totalSteps (whole (100 * n)) = whole n.
Proof.
  intros Hn.
  assert (Hq : whole (100 * n) / Q2Qc 100 = whole n).
  { change (Q2Qc 100) with (whole 100). rewrite whole_div; [|done|by exists n; lia].
    f_equal. rewrite Z.mul_comm. by apply Z.div_mul. }
  unfold totalSteps, Math_ceil. rewrite Hq. unfold whole at 1.
  rewrite (Qceiling_comp _ (inject_Z n)) by apply this_Q2Qc.
  rewrite Qceiling_Z. unfold Math_max. rewrite decide_True; [done|].
  change 1 with (whole 1). by apply whole_le.
Qed.

Lemma within_limit (b : Z) x : (b < 10 ^ 21)%Z -> within b x -> Qcabs x < limit21.
Proof.
  intros Hb [H1 H2]. apply Qcabs_lt.
  - assert (H : - limit21 < - whole b).
    { change limit21 with (whole (10 ^ 21)). apply whole_lt in Hb.
      revert Hb. generalize (whole b) (whole (10 ^ 21)). intros u v. qc. lra. }
    revert H H1. generalize (whole b). intros u. qc. lra.
  - assert (H : whole b < limit21) by (by apply whole_lt).
    revert H H2. generalize (whole b). intros u. qc. lra.
Qed.

Lemma within_sum (b : Z) x y :
  within b x -> - whole (2 * b) ≤ y -> y ≤ whole (2 * b) -> within (3 * b) (x + y).
Proof.
  intros [H1 H2] H3 H4. unfold within.
  replace (3 * b)%Z with (b + 2 * b)%Z by lia. rewrite <- whole_plus.
  revert H1 H2 H3 H4. generalize (whole b) (whole (2 * b)). intros u v.
  intros H1 H2 H3 H4. split; clear - H1 H2 H3 H4; qc; lra.
Qed.

Lemma within_diff (b : Z) x y :
  within b x -> within b y -> - whole (2 * b) ≤ y - x ∧ y - x ≤ whole (2 * b).
Proof.
  intros [H1 H2] [H3 H4].
  replace (2 * b)%Z with (b + b)%Z by lia. rewrite <- whole_plus.
  revert H1 H2 H3 H4. generalize (whole b). intros u H1 H2 H3 H4.
  split; clear - H1 H2 H3 H4; qc; lra.
Qed.

(** The sum that a tick rounds stays within three times the bound of the
    props and of [count]. *)
Lemma target_within (b : Z) p c :
  within b (start p) -> within b (end_ p) -> within b c ->
  within (3 * b) (c + increment p).
Proof.
  intros Hs He Hc. destruct (within_diff _ _ _ Hs He) as [H1 H2].
  apply within_sum; [done|..].
  - destruct (decide (start p ≤ end_ p)) as [Hle|Hle].
    + pose proof (increment_nonneg p Hle) as H0.
      assert (Hb : 0 ≤ whole (2 * b)).
      { clear - H1 H2. revert H1 H2. generalize (end_ p - start p) (whole (2 * b)).
        intros u v H1 H2. qc. lra. }
      clear - H0 Hb. revert H0 Hb. generalize (increment p) (whole (2 * b)).
      intros u v H0 Hb. qc. lra.
    + apply Qcnot_le_lt in Hle.
      assert (Hle' : end_ p ≤ start p) by (clear - Hle; qc; lra).
      pose proof (increment_ge p Hle') as H0.
      clear - H0 H1. revert H0 H1.
      generalize (increment p) (end_ p - start p) (whole (2 * b)).
      intros u v w H0 H1. qc. lra.
  - destruct (decide (start p ≤ end_ p)) as [Hle|Hle].
    + pose proof (increment_le p Hle) as H0.
      clear - H0 H2. revert H0 H2.
      generalize (increment p) (end_ p - start p) (whole (2 * b)).
      intros u v w H0 H2. qc. lra.
    + apply Qcnot_le_lt in Hle.
      assert (Hi : increment p ≤ 0).
      { assert (Hq := increment_steps_Q p).
        pose proof (totalSteps_pos (duration p)) as Hn.
        apply Qcnot_lt_le. intros Hpos. clear - Hq Hn Hpos Hle. revert Hq Hn Hpos Hle.
        generalize (increment p) (totalSteps (duration p)). intros u n Hq Hn Hpos Hle.
        revert Hn Hpos Hle. qc. intros. nra. }
      assert (Hb : 0 ≤ whole (2 * b)).
      { clear - H1 H2. revert H1 H2. generalize (end_ p - start p) (whole (2 * b)).
        intros u v H1 H2. qc. lra. }
      clear - Hi Hb. revert Hi Hb. generalize (increment p) (whole (2 * b)).
      intros u v Hi Hb. qc. lra.
Qed.

Lemma target_limit (b : Z) p c :
  (3 * b < 10 ^ 21)%Z ->
  within b (start p) -> within b (end_ p) -> within b c ->
  Qcabs (c + increment p) < limit21.
Proof.
  intros Hb Hs He Hc. apply (within_limit (3 * b)); [done|]. by apply target_within.
Qed.

(** The increment of whole props whose difference [n] steps divide. *)
Lemma increment_whole p (a b n : Z) :
  start p = whole a -> end_ p = whole b -> duration p = whole (100 * n) ->
  (1 <= n)%Z -> (n | b - a)%Z ->
  totalSteps (duration p) = whole n ∧ increment p = whole ((b - a) / n).
Proof.
  intros Ha Hb Hd Hn Hdiv.
  assert (Ht : totalSteps (duration p) = whole n)
    by (rewrite Hd; by apply totalSteps_hundreds).
  split; [done|]. unfold increment. rewrite Ht, Ha, Hb, whole_minus.
  apply whole_div; [lia|done].
Qed.

Lemma within_whole (b z : Z) : (Z.abs z <= b)%Z -> within b (whole z).
Proof.
  intros H. unfold within. split.
  - replace (- whole b) with (whole (- b)).
    + apply whole_le. lia.
    + unfold whole. rewrite Qcopp_Q2Qc. apply Q2Qc_eq. by rewrite inject_Z_opp.
  - apply whole_le. lia.
Qed.

Lemma within_mono (b b' : Z) x : (b <= b')%Z -> within b x -> within b' x.
Proof.
  intros Hb [H1 H2]. apply whole_le in Hb. unfold within.
  revert Hb H1 H2. generalize (whole b) (whole b'). intros u v Hb H1 H2.
  split; clear - Hb H1 H2; qc; lra.
Qed.

Lemma whole_nat (k : nat) : Q2Qc (inject_Z (Z.of_nat k)) = whole (Z.of_nat k).
Proof. done. Qed.

(** *** Fixed notation *)









(** *** Groups of thousands *)

(** The en-US form of a whole number, by groups of three digits from the
    right. *)
Lemma comma_thousands it (n : N) :
  formatNumber comma it (whole (Z.of_N n))
  = (if decide (n < 1000)%N then digits n
     else formatNumber comma it (whole (Z.of_N (n / 1000)))
          +:+ "," +:+ fraction 3 (n mod 1000)).
Proof.
  unfold whole. case_decide as Hn.
  - rewrite comma_natural. apply groupDigits_short. by apply digits_short.
  - rewrite !comma_natural.
    assert (Hq : (0 < n / 1000)%N).
    { apply N.div_str_pos. lia. }
    assert (Hr : (n mod 1000 < 1000)%N) by (by apply N.mod_lt).
    rewrite (N.div_mod n 1000) at 1 by done.
    rewrite (N.mul_comm 1000), digits_thousands by done.
    apply groupDigits_app.
    + destruct (to_uint_head (n / 1000)) as (c & r & -> & _). done.
    + unfold fraction. by rewrite length_string_of_uint, nb_digits_lastDigits.
Qed.

(** * The claims *)

(** ** C1 *)

(** C1 (defect): with start = 10, end = 0 and duration = 1000 the first tick
    puts [count] at [end] and the next ticks carry it below [end]; the values
    do not stay within [[0, 10]] and do not stop at [end]. *)
Theorem C1_descending_run :
  countsOf (config 10 0 1000 false false) [Tick 0; Tick 1; Tick 2; Tick 3]%nat
  = Some [10 # 1; 0 # 1; -1 # 1; -2 # 1; -3 # 1]%Q.
Proof. vm_compute. reflexivity. Qed.

(** A second way in which a run misses [end]: with start = 0, end = 1 and
    duration = 60000 the increment is 1/600, which [toFixed(2)] rounds away,
    and [count] never leaves [start]. *)
Lemma small_increment_stalls :
  countsOf (config 0 1 60000 false false) [Tick 0; Tick 0; Tick 0]%nat
  = Some [0 # 1; 0 # 1; 0 # 1; 0 # 1]%Q.
Proof. vm_compute. reflexivity. Qed.

(** ** C2 *)




(** ** C3 *)

(** C3 (defect): with start = end = 5 the interval is registered as
    soon as the observer reports the component visible; and with
    start = end = 1.234 its first tick changes [count] to 1.23. *)
Lemma C3_timer_with_equal_endpoints :
  let p := config 5 5 1000 false false in
  let q := withEnds (1234 # 1000) defaultProps in
  start p = end_ p ∧ start q = end_ q
  ∧ (exists s, (s0 ← mount p; run [Intersect true] s0) = Some s
        ∧ intervals s !! 0%nat = Some (timerOf p))
  ∧ countsOf q [Intersect true; Tick 0%nat] = Some [617 # 500; 617 # 500; 123 # 100]%Q.
Proof.
  cbv zeta. split; [done|]. split; [done|]. split.
  - eexists. split; [vm_compute; reflexivity|]. vm_compute. reflexivity.
  - vm_compute. reflexivity.
Qed.

(** The runs with [start = end] and fixed props: in every state an interval
    is registered exactly while the component is mounted and visible,
    whatever [startOnViewport]; and when [end] has at most two decimals (and
    is below [10^21]) [count] stays at [start]. *)
Theorem C3_equal_endpoints p es :
  start p = end_ p -> forallb keepsProps es = true ->
  exists h, trace p es = Some h ∧
    Forall (fun s =>
      (intervals s = ∅ <-> isVisible s && mounted s = false)
      ∧ (twoDecimals (end_ p) -> Qcabs (end_ p) < limit21 -> count s = start p)) h.
Proof.
  intros Heq Hes. unfold trace.
  destruct (mount_spec p) as (s0 & Hm0 & Ho0 & Hmt0 & Hp0 & Hc0 & Hv0).
  rewrite Hm0. cbn [mbind option_bind].
  set (P := fun t : State => props t = p
      ∧ (twoDecimals (end_ p) -> Qcabs (end_ p) < limit21 -> count t = start p)).
  destruct (history_inv P es s0) as (h & Hh & HF); [done|done| |].
  - intros e t t' He Ho [Hp Hc] Hs.
    assert (He' : keepsProps e = true).
    { rewrite forallb_forall in Hes. apply Hes. by apply list_elem_of_In. }
    split; [by rewrite (step_keepsProps _ _ _ Ho He' Hs)|].
    intros H2 Hl. specialize (Hc H2 Hl).
    destruct (mounted t) eqn:Hmt.
    2:{ rewrite step_unmounted in Hs by done. by injection Hs as <-. }
    destruct e as [i|b|q|]; [| |done|].
    + destruct (intervals t !! i) as [iv|] eqn:Hi.
      2:{ simpl in Hs. rewrite Hi in Hs. by injection Hs as <-. }
      destruct (owned_lookup _ _ _ Ho Hi) as (_ & -> & _).
      apply (step_tick_count _ _ _ _ Ho Hi) in Hs as (Hs & _).
      rewrite call_timerOf, Hp, updateCount_rounded in Hs. 
      * injection Hs as <-. rewrite Hc, increment_zero by done.
        replace (start p + 0) with (end_ p) by (rewrite Heq; ring).
        rewrite rounded2_fix by done. by rewrite decide_True.
      * rewrite Hc, increment_zero by done.
        by replace (start p + 0) with (end_ p) by (rewrite Heq; ring).
    + apply step_intersect in Hs as (_ & _ & _ & Hsame & Hdiff); [|done..].
      destruct (decide (b = isVisible t)) as [Hb|Hb]; [by rewrite Hsame|].
      destruct (Hdiff Hb) as (_ & -> & _). unfold restartValue. simpl.
      rewrite Hp. by destruct (_ && _).
    + apply (step_mounted _ _ _ Ho Hmt) in Hs. lazy beta iota in Hs.
      destruct Hs as (_ & _ & _ & _ & -> & _). done.
  - exists h. split; [done|]. eapply Forall_impl; [exact HF|].
    intros t [Ho [Hp Hc]]. split; [|done].
    unfold owned in Ho. unfold gate in Ho. rewrite Hp in Ho.
    rewrite (bool_decide_eq_false_2 (start p ≠ end_ p)) in Ho by (by intros H; apply H).
    rewrite andb_false_r, orb_false_r in Ho.
    destruct (cleanup t) as [i|].
    + destruct Ho as (-> & _ & -> & ->). split; [|done].
      intros H. apply (f_equal (fun m => m !! i)) in H.
      by rewrite lookup_singleton_eq, lookup_empty in H.
    + destruct Ho as [-> Hg]. split; [|done]. intros _.
      destruct (mounted t); [|by rewrite andb_false_r]. by rewrite Hg.
Qed.

Lemma C3_equal_endpoints_witness :
  exists h,
    trace (config 5 5 1000 false true) [Intersect true; Tick 0%nat; Intersect false]
    = Some h
    ∧ List.map (fun s => (this (count s), bool_decide (intervals s = ∅))) h
      = [(5 # 1, true); (5 # 1, false); (5 # 1, false); (5 # 1, true)]%Q.
Proof.
  destruct (C3_equal_endpoints (config 5 5 1000 false true)
              [Intersect true; Tick 0%nat; Intersect false] eq_refl eq_refl)
    as (h & Hh & _).
  exists h. split; [exact Hh|].
  vm_compute in Hh. injection Hh as <-. vm_compute. reflexivity.
Defined.

(** ** C4 *)




(** ** C5 *)

(** C5 (defect): with [startOnViewport] and without [restartOnViewport],
    after two ticks the component leaves the viewport and enters it again;
    [count] is still 2, not [start] = 0, and the next tick goes on to 3. *)
Theorem C5_no_reset_on_reentry :
  countsOf (config 0 10 1000 true false)
    [Intersect true; Tick 0; Tick 1; Intersect false; Intersect true; Tick 3]%nat
  = Some [0 # 1; 0 # 1; 1 # 1; 2 # 1; 2 # 1; 2 # 1; 3 # 1]%Q.
Proof. vm_compute. reflexivity. Qed.

(** ** C6 *)

(** C6: with [restartOnViewport], when the observer reports the component
    visible after it was not, [count] is [start] again and a new interval is
    registered, whose first tick computes its value from [start]; the value
    that [count] had before plays no role. *)
Theorem C6_restart_on_reentry s :
  reachable s -> mounted s = true ->
  restartOnViewport (props s) = true -> isVisible s = false ->
  exists s' i,
    step (Intersect true) s = Some s'
    ∧ isVisible s' = true ∧ props s' = props s
    ∧ count s' = start (props s)
    ∧ cleanup s' = Some i ∧ intervals s' = {[ i := timerOf (props s) ]}
    ∧ intervals s !! i = None
    ∧ exists s'', step (Tick i) s' = Some s''
        ∧ updateCount (start (props s)) (end_ (props s)) (duration (props s))
            (start (props s)) = Some (count s'').
Proof.
  intros Hr Hm Hre Hv. pose proof (reachable_owned s Hr) as Ho.
  destruct (step_total (Intersect true) s Ho) as [s' Hs].
  destruct (step_intersect _ _ _ Ho Hm Hs) as (Ho' & Hm' & Hp & _ & Hd).
  destruct Hd as (Hv' & Hc & Hfresh); [by rewrite Hv|].
  assert (Hcount : count s' = start (props s)).
  { rewrite Hc. unfold restartValue. simpl. by rewrite Hre. }
  assert (Hg : gate (props s') (isVisible s') = true) by (by rewrite Hv').
  unfold owned in Ho'. destruct (cleanup s') as [i|] eqn:Hcl; rewrite ?Hcl in Ho'.
  2:{ destruct Ho' as [_ Hn]. specialize (Hn Hm'). congruence. }
  destruct Ho' as (Hi & Hlt & _). exists s', i. rewrite Hp in Hi.
  repeat split; try done.
  - destruct (intervals s !! i) as [iv|] eqn:Hl; [|done].
    apply (owned_lookup _ _ _ Ho) in Hl as (_ & _ & _ & _ & Hlt').
    assert (Hsome : is_Some (intervals s' !! i)).
    { rewrite Hi, lookup_singleton_eq. by eexists. }
    apply Hfresh in Hsome. lia.
  - assert (Ho2 : owned s').
    { unfold owned. rewrite Hcl, Hp. rewrite Hp in Hg. done. }
    destruct (step_total (Tick i) s' Ho2) as [s'' Hs'']. exists s''.
    split; [done|].
    assert (Hl : intervals s' !! i = Some (timerOf (props s))).
    { by rewrite Hi, lookup_singleton_eq. }
    apply (step_tick_count _ _ _ _ Ho2 Hl) in Hs'' as (Hs'' & _).
    by rewrite call_timerOf, Hcount in Hs''.
Qed.

Lemma C6_restart_on_reentry_witness :
  exists s', step (Intersect true) sampleC6 = Some s'
    ∧ this (count sampleC6) = (2 # 1)%Q ∧ this (count s') = (0 # 1)%Q
    ∧ intervals s' !! 4%nat = Some (timerOf (props sampleC6)).
Proof.
  destruct (C6_restart_on_reentry sampleC6 sampleC6_reachable eq_refl eq_refl eq_refl)
    as (s' & i & Hs & _).
  exists s'. split; [exact Hs|].
  vm_compute in Hs. injection Hs as <-. repeat split; vm_compute; reflexivity.
Defined.
(** ** C7 *)

(** C7 (counterexample): with start = 0, end = 10 and duration = 200 the
    second tick puts [count] at [end]; interval 2 is then registered, and
    its tick fires and leaves it registered. *)
Lemma C7_counterexample :
  let p := config 0 10 200 false false in
  exists s s', (s0 ← mount p; run [Tick 0; Tick 1]%nat s0) = Some s
    ∧ count s = end_ p
    ∧ intervals s !! 2%nat = Some (timerOf p)
    ∧ step (Tick 2) s = Some s'
    ∧ intervals s' !! 2%nat = Some (timerOf p).
Proof.
  cbv zeta. eexists _, _.
  split; [vm_compute; reflexivity|].
  split; [apply Qc_is_canon; vm_compute; reflexivity|].
  split; [vm_compute; reflexivity|].
  split; vm_compute; reflexivity.
Qed.

(** C7 (amended): reaching [end] does not cancel the interval.  In a
    mounted state with [count = end] the interval is registered exactly when
    [isVisible || (!startOnViewport && start !== end)]; and when
    [start <= end] and [end] has at most two decimals (magnitudes below
    [10^21]) its tick changes nothing: [count] stays at [end] and the same
    interval stays registered. *)
Theorem C7_interval_outlives_end s :
  reachable s -> mounted s = true -> count s = end_ (props s) ->
  let p := props s in
  (gate p (isVisible s) = false -> intervals s = ∅)
  ∧ (gate p (isVisible s) = true ->
     exists i, cleanup s = Some i ∧ intervals s = {[ i := timerOf p ]}
       ∧ (start p ≤ end_ p -> twoDecimals (end_ p) ->
          Qcabs (end_ p + increment p) < limit21 ->
          step (Tick i) s = Some s)).
Proof.
  intros Hr Hm Hc p. pose proof (reachable_owned s Hr) as Ho.
  unfold owned in Ho. fold p in Ho. split; intros Hg.
  - rewrite Hg in Ho. destruct (cleanup s); [|tauto]. by destruct Ho as (_ & _ & _ & ?).
  - destruct (cleanup s) as [i|];
      [|destruct Ho as [_ Hn]; specialize (Hn Hm); congruence].
    destruct Ho as (Hi & _). exists i. split; [done|]. split; [done|].
    intros Hle H2 Hbig. cbn [step]. rewrite Hi, lookup_singleton_eq, Hm, call_timerOf.
    fold p. rewrite Hc. fold p. rewrite updateCount_rounded by done.
    cbn [mbind option_bind].
    assert (Hge : end_ p ≤ rounded 2 (end_ p + increment p)).
    { apply rounded2_ge; [done|]. pose proof (increment_nonneg p Hle) as Hinc.
      revert Hinc. qc. lra. }
    destruct (decide (end_ p ≤ rounded 2 (end_ p + increment p))); [|done].
    by destruct (decide (end_ p = end_ p)).
Qed.

Lemma C7_interval_outlives_end_witness :
  intervals sampleC7 = {[ 2%nat := timerOf (props sampleC7) ]}
  ∧ step (Tick 2) sampleC7 = Some sampleC7.
Proof.
  assert (Hc : count sampleC7 = end_ (props sampleC7))
    by (apply Qc_is_canon; vm_compute; reflexivity).
  assert (Hg : gate (props sampleC7) (isVisible sampleC7) = true)
    by (vm_compute; reflexivity).
  destruct (C7_interval_outlives_end sampleC7 sampleC7_reachable eq_refl Hc)
    as [_ H].
  destruct (H Hg) as (i & Hi & Hint & Htick).
  injection Hi as <-. split; [exact Hint|]. apply Htick.
  - vm_compute. discriminate.
  - exists 1000%Z. apply Qc_is_canon. vm_compute. reflexivity.
  - vm_compute. reflexivity.
Defined.

(** ** C8 *)

(** C8: while the interval [i] of the timer effect is live it is the only
    one, and its callback closes over the current props.  Unmounting clears
    it, after which no event changes the state.  Every step that changes a
    dependency of the effect clears [i] as well, and what is registered
    afterwards is the interval of the new props: no callback of an earlier
    render can run. *)
Theorem C8_teardown_cancels s i :
  reachable s -> cleanup s = Some i ->
  intervals s = {[ i := timerOf (props s) ]}
  ∧ (exists s', step Unmount s = Some s' ∧ intervals s' = ∅
       ∧ forall es, run es s' = Some s')
  ∧ (forall e s', step e s = Some s' ->
       timerDeps (props s') (count s') (isVisible s')
       ≠ timerDeps (props s) (count s) (isVisible s) ->
       intervals s' !! i = None
       ∧ forall j iv, intervals s' !! j = Some iv ->
           cleanup s' = Some j ∧ iv = timerOf (props s')).
Proof.
  intros Hr Hc. pose proof (reachable_owned s Hr) as Ho.
  assert (H : intervals s = {[ i := timerOf (props s) ]} ∧ (i < nextId s)%nat
              ∧ mounted s = true).
  { unfold owned in Ho. rewrite Hc in Ho. tauto. }
  destruct H as (Hi & Hlt & Hm). split; [done|]. split.
  - destruct (step_total Unmount s Ho) as [s' Hs]. exists s'. split; [done|].
    pose proof (step_owned _ _ _ Ho Hs) as Ho'.
    apply (step_mounted _ _ _ Ho Hm) in Hs as (Hm' & Hi' & _).
    split; [done|]. intros es. by apply run_unmounted.
  - intros e s' Hs Hdeps. pose proof (step_owned _ _ _ Ho Hs) as Ho'. split.
    2:{ intros j iv Hj. apply (owned_lookup _ _ _ Ho') in Hj. tauto. }
    assert (Hfresh : (forall j, is_Some (intervals s' !! j) -> (nextId s ≤ j)%nat)
                     -> intervals s' !! i = None).
    { intros Hf. destruct (intervals s' !! i) eqn:Hl; [|done].
      assert (nextId s ≤ i)%nat by (apply Hf; by eexists). lia. }
    assert (Hl : loose s) by (by apply owned_loose).
    pose proof (step_mounted _ _ _ Ho Hm Hs) as H.
    destruct e as [j|b|p|]; lazy beta iota in H.
    + destruct (intervals s !! j) as [iv|]; [|by subst].
      destruct H as (c & _ & H). case_decide; [by subst|]. subst s'.
      apply Hfresh. intros k. apply (refresh_fresh (withCount c s)).
      destruct Hl. by split.
    + apply step_intersect in Hs as (_ & _ & _ & Hsame & Hdiff); [|done..].
      destruct (decide (b = isVisible s)) as [Hb|Hb]; [by rewrite Hsame in Hdeps|].
      apply Hfresh. by destruct (Hdiff Hb) as (_ & _ & ?).
    + rewrite updateLimit_eq in H.
      set (tc := bool_decide (timerDeps p (count s) (isVisible s)
                   ≠ timerDeps (props s) (count s) (isVisible s))) in *.
      set (rc := bool_decide (restartDeps p (isVisible s)
                   ≠ restartDeps (props s) (isVisible s))) in *.
      assert (Hready : ready tc (withProps p s)).
      { unfold ready, tc. case_bool_decide as Hd.
        - destruct Hl. by split.
        - apply owned_withProps; [done|].
          by destruct (decide (timerDeps p (count s) (isVisible s)
                               = timerDeps (props s) (count s) (isVisible s))). }
      destruct (decide (tc = true ∨ restartValue rc (withProps p s) ≠ count s))
        as [Hch|Hch].
      * apply Hfresh. intros k.
        by apply (commit_fresh _ tc rc (withProps p s) s' k Hm Hready H).
      * exfalso. apply Hdeps.
        assert (Htc : tc = false) by (destruct tc; [exfalso; apply Hch; by left|done]).
        assert (Hrv : restartValue rc (withProps p s) = count s).
        { destruct (decide (restartValue rc (withProps p s) = count s)); [done|].
          exfalso. apply Hch. by right. }
        rewrite Htc in H.
        rewrite (commit_same _ rc (withProps p s)) in H by done.
        injection H as <-. simpl. unfold tc in Htc.
        apply bool_decide_eq_false in Htc.
        by destruct (decide (timerDeps p (count s) (isVisible s)
                             = timerDeps (props s) (count s) (isVisible s))).
    + destruct H as (_ & -> & _). apply lookup_empty.
Qed.

Lemma C8_teardown_cancels_witness :
  intervals sampleC7 = {[ 2%nat := timerOf (props sampleC7) ]}
  ∧ (exists s', step Unmount sampleC7 = Some s' ∧ intervals s' = ∅
       ∧ run [Tick 2; Intersect true; Tick 2]%nat s' = Some s')
  ∧ (exists s', step (Intersect true) sampleC7 = Some s'
       ∧ intervals s' !! 2%nat = None
       ∧ intervals s' !! 3%nat = Some (timerOf (props s'))).
Proof.
  destruct (C8_teardown_cancels sampleC7 2%nat sampleC7_reachable eq_refl)
    as (Hi & (s' & Hs & He & Hrun) & Hdep).
  split; [exact Hi|]. split.
  - exists s'. split; [exact Hs|]. split; [exact He|]. apply Hrun.
  - assert (Hs2 : exists t, step (Intersect true) sampleC7 = Some t
                    ∧ isVisible t = true
                    ∧ intervals t !! 3%nat = Some (timerOf (props t))).
    { eexists. split; [vm_compute; reflexivity|]. split; vm_compute; reflexivity. }
    destruct Hs2 as (t & Ht & Hv & H3). exists t. split; [exact Ht|].
    split; [|exact H3]. apply (Hdep _ _ Ht).
    unfold timerDeps. rewrite Hv. intros Hd. by injection Hd.
Defined.

(** ** C9 *)




(** ** C10 *)

(** C10: two runs that differ only in the value of [loop], in the props of
    the mount and of every later render, go through the same values of
    [count] and show the same element after every event; and the runs
    exist. *)
Theorem C10_loop_irrelevant p es b1 b2 :
  option_map (List.map count) (trace (setLoop b1 p) (onLoop b1 <$> es))
  = option_map (List.map count) (trace (setLoop b2 p) (onLoop b2 <$> es))
  ∧ option_map (List.map view) (trace (setLoop b1 p) (onLoop b1 <$> es))
    = option_map (List.map view) (trace (setLoop b2 p) (onLoop b2 <$> es))
  ∧ is_Some (trace (setLoop b1 p) (onLoop b1 <$> es)).
Proof.
  rewrite (trace_relabel b1 b2).
  assert (Hex : is_Some (trace (setLoop b2 p) (onLoop b2 <$> es))).
  { unfold trace. destruct (mount_spec (setLoop b2 p)) as (s0 & -> & Ho & _).
    cbn [mbind option_bind].
    destruct (history_inv (fun _ => True) (onLoop b2 <$> es) s0) as (h & -> & _); done. }
  destruct Hex as [h ->]. cbn [option_map]. rewrite !List.map_map.
  repeat split; by eexists.
Qed.

(** * Further properties *)

(** X1: the mount.  In the first committed state [count] is [start] (the
    number span shows the form of [Math.round(start)]), the component is not
    visible, and the interval of the props is registered under id 0 exactly
    when [!startOnViewport && start !== end]; otherwise no interval exists. *)
Theorem X1_mount_first_render p :
  exists s, mount p = Some s
    ∧ props s = p ∧ count s = start p ∧ isVisible s = false ∧ mounted s = true
    ∧ (if negb (startOnViewport p) && bool_decide (start p ≠ end_ p)
       then cleanup s = Some 0%nat ∧ intervals s = {[ 0%nat := timerOf p ]}
       else cleanup s = None ∧ intervals s = ∅)
    ∧ numberText (view s)
      = formatNumber (decimalSeparatorType p) (incrementType p) (Math_round (start p)).
Proof.
  unfold mount. rewrite updateLimit_eq, commit_eq. eexists. split; [done|].
  unfold restartValue. cbn [isVisible props count]. rewrite andb_false_r.
  rewrite decide_True by done.
  unfold refresh, runCleanup, timerEffect. cbn [cleanup isVisible props orb].
  destruct (negb (startOnViewport p) && bool_decide (start p ≠ end_ p)) eqn:Hg.
  - cbn. repeat split; try done.
  - destruct (startOnViewport p); cbn; repeat split; done.
Qed.

(** X2: the effects settle.  The [setCount] calls of the effects never
    reach the limit on nested updates: two nested renders are always
    enough, whatever the state.  So the mount gives a state for every props,
    and so does every event of a run that is not the tick of an interval
    (a change of visibility, new props, the unmount); a tick adds the
    arithmetic of the updater. *)
Theorem X2_effects_settle :
  (forall fuel tc rc t,
     commit (S (S fuel)) tc rc t = commit 2 tc rc t ∧ is_Some (commit 2 tc rc t))
  ∧ (forall p, is_Some (mount p))
  ∧ (forall s e, reachable s -> (forall i, e ≠ Tick i) -> is_Some (step e s)).
Proof.
  split; [|split].
  - intros fuel tc rc t. rewrite !commit_eq. split; [done|by eexists].
  - intros p. destruct (mount_spec p) as (s & -> & _). by eexists.
  - intros s e Hr _. apply step_total. by apply reachable_owned.
Qed.





(** X5: with [start <= end], both of at most two decimals, and fixed props,
    [count] stays within [[start, end]] and keeps at most two decimals in
    every state of every run, and no tick decreases it. *)
Theorem X5_ascending_in_range p es :
  start p ≤ end_ p -> twoDecimals (start p) -> twoDecimals (end_ p) ->
  - limit21 < start p -> end_ p + (end_ p - start p) < limit21 ->
  forallb keepsProps es = true ->
  exists h, trace p es = Some h ∧
    Forall (fun s =>
      start p ≤ count s ∧ count s ≤ end_ p ∧ twoDecimals (count s)
      ∧ forall i s', step (Tick i) s = Some s' -> count s ≤ count s') h.
Proof.
  intros Hse Hs2 He2 Hlo Hhi Hes.
  destruct (counts_inv (fun c => start p ≤ c ∧ c ≤ end_ p ∧ twoDecimals c) p es)
    as (h & Hh & HF); [done|done| |].
  - intros c c' (H1 & H2 & H3) Hup.
    destruct (updateCount_ascending p c c') as (H4 & H5 & H6); try done.
    split; [|done]. revert H1 H4. qc. lra.
  - exists h. split; [done|]. eapply Forall_impl; [exact HF|].
    intros t (Ho & Hp & H1 & H2 & H3). split; [done|]. split; [done|].
    split; [done|]. intros i t' Hs.
    destruct (tick_cases _ _ _ Ho Hs) as (_ & _ & _ & _ & [[_ ->]|[_ Hu]]);
      [apply Qcle_refl|].
    rewrite Hp in Hu.
    by destruct (updateCount_ascending p (count t) (count t')) as (H4 & _).
Qed.

Lemma X5_ascending_in_range_witness :
  exists h, trace (config 0 10 300 false true)
              [Tick 0; Intersect true; Tick 3; Tick 4; Tick 5; Tick 6]%nat = Some h
    ∧ List.map (fun s => this (count s)) h
      = [0 # 1; 333 # 100; 0 # 1; 333 # 100; 333 # 50; 999 # 100; 10 # 1]%Q.
Proof.
  assert (H1 : start (config 0 10 300 false true) ≤ end_ (config 0 10 300 false true))
    by (vm_compute; discriminate).
  assert (H2 : twoDecimals (start (config 0 10 300 false true)))
    by (exists 0%Z; apply Qc_is_canon; vm_compute; reflexivity).
  assert (H3 : twoDecimals (end_ (config 0 10 300 false true)))
    by (exists 1000%Z; apply Qc_is_canon; vm_compute; reflexivity).
  assert (H4 : - limit21 < start (config 0 10 300 false true))
    by (vm_compute; reflexivity).
  assert (H5 : end_ (config 0 10 300 false true)
               + (end_ (config 0 10 300 false true)
                  - start (config 0 10 300 false true)) < limit21)
    by (vm_compute; reflexivity).
  destruct (X5_ascending_in_range (config 0 10 300 false true)
              [Tick 0; Intersect true; Tick 3; Tick 4; Tick 5; Tick 6]%nat
              H1 H2 H3 H4 H5 eq_refl) as (h & Hh & _).
  exists h. split; [exact Hh|].
  vm_compute in Hh. injection Hh as <-. vm_compute. reflexivity.
Defined.

(** X6: whole steps.  With whole numbers [start < end] of magnitude at
    most [2^51], [duration = 100 n] and [n] dividing [end - start] (the timer
    running from the mount), every step is the whole number
    [(end - start) / n] and nothing is rounded: after [k] ticks of the live
    interval [count] is [min(end, start + k * (end - start) / n)], hence
    [end] from tick [n] on. *)
Theorem X6_exact_steps_reach_end p (a b n : Z) (k : nat) :
  startOnViewport p = false ->
  start p = whole a -> end_ p = whole b -> duration p = whole (100 * n) ->
  (a < b)%Z -> (1 <= n)%Z -> (n | b - a)%Z ->
  (Z.abs a <= 2 ^ 51)%Z -> (Z.abs b <= 2 ^ 51)%Z -> (100 * n <= 2 ^ 53)%Z ->
  exists s0 s, mount p = Some s0 ∧ ticks k s0 = Some s
    ∧ count s = whole (Z.min b (a + Z.of_nat k * ((b - a) / n))).
Proof.
  intros Hv Ha Hb Hd Hab Hn Hdiv Hba Hbb _.
  destruct (increment_whole p a b n Ha Hb Hd Hn Hdiv) as [Ht Hi].
  assert (Hlt : start p < end_ p) by (rewrite Ha, Hb; by apply whole_lt).
  assert (Hq : (1 <= (b - a) / n)%Z).
  { destruct Hdiv as [q Hq]. rewrite Hq, Z.div_mul by lia. nia. }
  assert (Hnq : (n * ((b - a) / n) = b - a)%Z).
  { destruct Hdiv as [q Hq']. rewrite Hq', Z.div_mul by lia. lia. }
  destruct (mount_spec p) as (s0 & Hm0 & Ho0 & Hmt0 & Hp0 & Hc0 & Hv0).
  destruct (ticks_afterSteps p k 0 s0) as (s & Hs & Hc); try done.
  - rewrite Ha. apply whole_twoDecimals.
  - rewrite Hi. apply whole_twoDecimals.
  - rewrite Ha. change limit21 with (whole (10 ^ 21)).
    replace (- whole (10 ^ 21)) with (whole (- 10 ^ 21)).
    + apply whole_lt. lia.
    + unfold whole. rewrite Qcopp_Q2Qc. apply Q2Qc_eq. by rewrite inject_Z_opp.
  - rewrite Hb, Hi, whole_plus. change limit21 with (whole (10 ^ 21)).
    apply whole_lt. nia.
  - rewrite Hc0. unfold afterSteps.
    change (Q2Qc (inject_Z (Z.of_nat 0))) with 0. rewrite decide_True.
    + ring.
    + pose proof (totalSteps_ge1 (duration p)) as H. revert H. qc. lra.
  - exists s0, s. split; [done|]. split; [done|]. rewrite Hc. cbn [Nat.add].
    unfold afterSteps. rewrite Ht, Ha, Hb, Hi, !whole_nat, whole_mult, whole_plus.
    destruct (decide (whole (Z.of_nat k) ≤ whole n)) as [Hk|Hk].
    + apply (proj1 (whole_le _ _)) in Hk. f_equal. rewrite Z.min_r; [done|]. nia.
    + rewrite whole_le in Hk. f_equal. rewrite Z.min_l; [done|]. nia.
Qed.

Lemma X6_exact_steps_reach_end_witness :
  exists s0 s, mount (config 0 100 2000 false false) = Some s0
    ∧ ticks 7 s0 = Some s ∧ this (count s) = (35 # 1)%Q.
Proof.
  assert (Hd : (20 | 100 - 0)%Z) by (exists 5%Z; reflexivity).
  assert (H1 : (0 < 100)%Z) by reflexivity.
  assert (H2 : (1 <= 20)%Z) by discriminate.
  assert (H3 : (Z.abs 0 <= 2 ^ 51)%Z) by discriminate.
  assert (H4 : (Z.abs 100 <= 2 ^ 51)%Z) by discriminate.
  assert (H5 : (100 * 20 <= 2 ^ 53)%Z) by discriminate.
  destruct (X6_exact_steps_reach_end (config 0 100 2000 false false) 0 100 20 7
              eq_refl eq_refl eq_refl eq_refl H1 H2 Hd H3 H4 H5)
    as (s0 & s & Hm & Hs & Hc).
  exists s0, s. split; [exact Hm|]. split; [exact Hs|].
  rewrite Hc. vm_compute. reflexivity.
Defined.

(** X7: with [start < end] of at most two decimals and magnitude at most
    [10^9], the timer running from the mount and an increment of at least
    0.01, [count] is exactly [end] after [k] ticks of the live interval, for
    every [k >= 100 * (end - start)] (a tick short of [end] gains at least
    0.01, lemma [ticks_progress]). *)
Theorem X7_ascending_reaches_end p k :
  startOnViewport p = false ->
  start p < end_ p -> twoDecimals (start p) -> twoDecimals (end_ p) ->
  Q2Qc (1 # 100) ≤ increment p ->
  within (10 ^ 9) (start p) -> within (10 ^ 9) (end_ p) ->
  Q2Qc 100 * (end_ p - start p) ≤ Q2Qc (inject_Z (Z.of_nat k)) ->
  exists s0 s, mount p = Some s0 ∧ ticks k s0 = Some s ∧ count s = end_ p.
Proof.
  intros Hv Hlt Hs2 He2 Hi [Hs1 Hs3] [He1 He3] Hk.
  assert (Hb : whole (10 ^ 9) + whole (10 ^ 9) + whole (10 ^ 9) < limit21).
  { rewrite !whole_plus. change limit21 with (whole (10 ^ 21)). by apply whole_lt. }
  assert (H0 : 0 ≤ whole (10 ^ 9)) by (change 0 with (whole 0); by apply whole_le).
  assert (Hlo : - limit21 < start p).
  { clear - H0 Hb Hs1. revert H0 Hb Hs1. generalize (whole (10 ^ 9)) limit21 (start p).
    intros u v w H0 Hb Hs1. qc. lra. }
  assert (Hhi : end_ p + (end_ p - start p) < limit21).
  { clear - H0 Hb Hs1 He3. revert H0 Hb Hs1 He3.
    generalize (whole (10 ^ 9)) limit21 (start p) (end_ p).
    intros u v w x H0 Hb Hs1 He3. qc. lra. }
  assert (Hi' : Q2Qc (1 # 200) < increment p).
  { clear - Hi. revert Hi. generalize (increment p). intros u Hi. qc. lra. }
  destruct (mount_spec p) as (s0 & Hm0 & Ho0 & Hmt0 & Hp0 & Hc0 & Hv0).
  destruct (ticks_progress p k s0) as (s & Hs & _ & Hle & Hc); try done.
  { rewrite Hc0. apply Qcle_refl. }
  { rewrite Hc0. clear - Hlt. revert Hlt. qc. lra. }
  { by rewrite Hc0. }
  exists s0, s. split; [done|]. split; [done|].
  destruct Hc as [Hc|Hc]; [done|]. apply Qcle_antisym; [done|].
  rewrite Hc0 in Hc. clear - Hc Hk. revert Hc Hk.
  generalize (Q2Qc (inject_Z (Z.of_nat k))) (count s) (start p) (end_ p).
  intros u v w x Hc Hk. qc. lra.
Qed.

Lemma X7_ascending_reaches_end_witness :
  exists s0 s, mount (config 0 1 300 false false) = Some s0
    ∧ ticks 100 s0 = Some s ∧ this (count s) = (1 # 1)%Q.
Proof.
  assert (H1 : start (config 0 1 300 false false) < end_ (config 0 1 300 false false))
    by (vm_compute; reflexivity).
  assert (H2 : twoDecimals (start (config 0 1 300 false false)))
    by (exists 0%Z; apply Qc_is_canon; vm_compute; reflexivity).
  assert (H3 : twoDecimals (end_ (config 0 1 300 false false)))
    by (exists 100%Z; apply Qc_is_canon; vm_compute; reflexivity).
  assert (H4 : Q2Qc (1 # 100) ≤ increment (config 0 1 300 false false))
    by (vm_compute; discriminate).
  assert (H5 : within (10 ^ 9) (start (config 0 1 300 false false)))
    by (split; vm_compute; discriminate).
  assert (H6 : within (10 ^ 9) (end_ (config 0 1 300 false false)))
    by (split; vm_compute; discriminate).
  assert (H7 : Q2Qc 100 * (end_ (config 0 1 300 false false)
                           - start (config 0 1 300 false false))
               ≤ Q2Qc (inject_Z (Z.of_nat 100)))
    by (vm_compute; discriminate).
  destruct (X7_ascending_reaches_end (config 0 1 300 false false) 100
              eq_refl H1 H2 H3 H4 H5 H6 H7) as (s0 & s & Hm & Hs & Hc).
  exists s0, s. split; [exact Hm|]. split; [exact Hs|].
  rewrite Hc. vm_compute. reflexivity.
Defined.

(** X8: with [start <= end], [start] of at most two decimals and magnitude
    at most [10^9], and an increment of at most 0.004, [toFixed(2)] rounds
    every step away: [count] equals [start] in every state of every run with
    fixed props. *)
Theorem X8_increment_rounded_away p es :
  start p ≤ end_ p -> increment p ≤ Q2Qc (1 # 250) ->
  twoDecimals (start p) -> within (10 ^ 9) (start p) ->
  forallb keepsProps es = true ->
  exists h, trace p es = Some h ∧ Forall (fun s => count s = start p) h.
Proof.
  intros Hse Hi Hs2 [Hs1 Hs3] Hes.
  pose proof (increment_nonneg p Hse) as Hi0.
  assert (Hbig : Qcabs (start p + increment p) < limit21).
  { assert (Hb : whole (10 ^ 9) + 1 < limit21).
    { change 1 with (whole 1). rewrite whole_plus.
      change limit21 with (whole (10 ^ 21)). by apply whole_lt. }
    assert (H0 : 0 ≤ whole (10 ^ 9)) by (change 0 with (whole 0); by apply whole_le).
    apply Qcabs_lt; clear - H0 Hb Hs1 Hs3 Hi Hi0; revert H0 Hb Hs1 Hs3 Hi Hi0;
      generalize (whole (10 ^ 9)) limit21 (start p) (increment p);
      intros u v w x H0 Hb Hs1 Hs3 Hi Hi0; qc; lra. }
  destruct (counts_inv (fun c => c = start p) p es) as (h & Hh & HF); [done|done| |].
  - intros c c' -> Hup. rewrite updateCount_rounded in Hup by done.
    apply (inj Some) in Hup. subst c'.
    rewrite rounded2_stall; [|done|done|].
    + case_decide; [|done]. by apply Qcle_antisym.
    + clear - Hi. revert Hi. generalize (increment p). intros u Hi. qc. lra.
  - exists h. split; [done|]. eapply Forall_impl; [exact HF|]. by intros t (_ & _ & ?).
Qed.

Lemma X8_increment_rounded_away_witness :
  exists h, trace (config 0 2 60000 false false) [Tick 0; Tick 0; Intersect true; Tick 1]%nat
            = Some h
    ∧ List.map (fun s => this (count s)) h = [0 # 1; 0 # 1; 0 # 1; 0 # 1; 0 # 1]%Q.
Proof.
  assert (H1 : start (config 0 2 60000 false false) ≤ end_ (config 0 2 60000 false false))
    by (vm_compute; discriminate).
  assert (H2 : increment (config 0 2 60000 false false) ≤ Q2Qc (1 # 250))
    by (vm_compute; discriminate).
  assert (H3 : twoDecimals (start (config 0 2 60000 false false)))
    by (exists 0%Z; apply Qc_is_canon; vm_compute; reflexivity).
  assert (H4 : within (10 ^ 9) (start (config 0 2 60000 false false)))
    by (split; vm_compute; discriminate).
  destruct (X8_increment_rounded_away (config 0 2 60000 false false)
              [Tick 0; Tick 0; Intersect true; Tick 1]%nat H1 H2 H3 H4 eq_refl)
    as (h & Hh & _).
  exists h. split; [exact Hh|].
  vm_compute in Hh. injection Hh as <-. vm_compute. reflexivity.
Defined.

(** X9: with whole numbers [end <= start] of magnitude at most [2^52], a
    tick taken while [start <= count <= 2^53] (the first tick after a mount
    or a restart) sets [count] to [end] at once: the test
    [nextCount >= end] already holds. *)
Theorem X9_descending_jumps_to_end s i iv (a b : Z) :
  reachable s -> intervals s !! i = Some iv ->
  start (props s) = whole a -> end_ (props s) = whole b -> (b <= a)%Z ->
  (Z.abs a <= 2 ^ 52)%Z -> (Z.abs b <= 2 ^ 52)%Z ->
  start (props s) ≤ count s -> count s ≤ whole (2 ^ 53) ->
  exists s', step (Tick i) s = Some s' ∧ count s' = end_ (props s).
Proof.
  intros Hr Hl Ha Hb Hba Hma Hmb Hc Hc53. pose proof (reachable_owned s Hr) as Ho.
  destruct (step_total (Tick i) s Ho) as [s' Hs]. exists s'. split; [done|].
  destruct (tick_cases _ _ _ Ho Hs) as (_ & _ & _ & _ & [[Hn _]|[_ Hu]]);
    [congruence|].
  assert (Hes : end_ (props s) ≤ start (props s))
    by (rewrite Ha, Hb; by apply whole_le).
  pose proof (increment_ge (props s) Hes) as Hi.
  assert (Hi0 : increment (props s) ≤ 0).
  { assert (Hq := increment_steps_Q (props s)).
    pose proof (totalSteps_pos (duration (props s))) as Hn.
    apply Qcnot_lt_le. intros Hpos. clear - Hq Hn Hpos Hes. revert Hq Hn Hpos Hes.
    generalize (increment (props s)) (totalSteps (duration (props s))).
    intros u n Hq Hn Hpos Hes. revert Hn Hpos Hes. qc. intros. nra. }
  assert (Hge : end_ (props s) ≤ count s + increment (props s)).
  { clear - Hc Hi. revert Hc Hi.
    generalize (increment (props s)) (count s) (start (props s)) (end_ (props s)).
    intros u v w x Hc Hi. qc. lra. }
  rewrite updateCount_rounded in Hu.
  - apply (inj Some) in Hu. rewrite <- Hu.
    rewrite decide_True; [done|]. apply rounded2_ge; [|done].
    rewrite Hb. apply whole_twoDecimals.
  - assert (H1 : - limit21 < whole b).
    { change limit21 with (whole (10 ^ 21)).
      replace (- whole (10 ^ 21)) with (whole (- 10 ^ 21)).
      - apply whole_lt. lia.
      - unfold whole. rewrite Qcopp_Q2Qc. apply Q2Qc_eq. by rewrite inject_Z_opp. }
    assert (H2 : whole (2 ^ 53) < limit21).
    { change limit21 with (whole (10 ^ 21)). by apply whole_lt. }
    rewrite Hb in Hge.
    apply Qcabs_lt; clear - H1 H2 Hge Hi0 Hc53; revert H1 H2 Hge Hi0 Hc53;
      generalize (increment (props s)) (count s) (whole b) (whole (2 ^ 53)) limit21;
      intros u v w x y H1 H2 Hge Hi0 Hc53; qc; lra.
Qed.

Lemma X9_descending_jumps_to_end_witness :
  exists s', step (Tick 0) sampleDown = Some s' ∧ this (count s') = (0 # 1)%Q.
Proof.
  assert (Hl : intervals sampleDown !! 0%nat = Some (timerOf (props sampleDown)))
    by (vm_compute; reflexivity).
  assert (H1 : (0 <= 10)%Z) by discriminate.
  assert (H2 : (Z.abs 10 <= 2 ^ 52)%Z) by discriminate.
  assert (H3 : (Z.abs 0 <= 2 ^ 52)%Z) by discriminate.
  assert (H4 : start (props sampleDown) ≤ count sampleDown)
    by (vm_compute; discriminate).
  assert (H5 : count sampleDown ≤ whole (2 ^ 53)) by (vm_compute; discriminate).
  destruct (X9_descending_jumps_to_end sampleDown 0%nat _ 10 0 sampleDown_reachable
              Hl eq_refl eq_refl H1 H2 H3 H4 H5) as (s' & Hs & Hc).
  exists s'. split; [exact Hs|]. rewrite Hc. vm_compute. reflexivity.
Defined.

(** X10: with an increment of at most -0.01 and magnitudes at most [10^9],
    a tick taken at or below [end] is not clamped: [count] strictly
    decreases, to a value within 0.01 of [count + increment], and an
    interval of the same props stays registered. *)
Theorem X10_descending_overshoots s i iv :
  reachable s -> intervals s !! i = Some iv ->
  increment (props s) ≤ - Q2Qc (1 # 100) -> count s ≤ end_ (props s) ->
  within (10 ^ 9) (start (props s)) -> within (10 ^ 9) (end_ (props s)) ->
  within (10 ^ 9) (count s) ->
  exists s' j, step (Tick i) s = Some s' ∧ count s' < count s
    ∧ count s + increment (props s) - Q2Qc (1 # 100) < count s'
    ∧ count s' < count s + increment (props s) + Q2Qc (1 # 100)
    ∧ intervals s' !! j = Some (timerOf (props s)).
Proof.
  intros Hr Hl Hi Hc Hws Hwe Hwc. pose proof (reachable_owned s Hr) as Ho.
  destruct (step_total (Tick i) s Ho) as [s' Hs]. exists s'.
  destruct (owned_lookup _ _ _ Ho Hl) as (_ & _ & Hm & Hg & _).
  destruct (tick_cases _ _ _ Ho Hs) as (Ho' & Hm' & Hp' & Hv' & [[Hn _]|[_ Hu]]);
    [congruence|].
  destruct (live_interval s') as (j & _ & Hj); [done|congruence|congruence|].
  exists j. split; [done|].
  rewrite updateCount_rounded in Hu by (by apply (target_limit (10 ^ 9))).
  apply (inj Some) in Hu.
  pose proof (rounded2_close (count s + increment (props s))) as [H1 H2].
  assert (Hlt : rounded 2 (count s + increment (props s)) < count s).
  { clear - H2 Hi. revert H2 Hi.
    generalize (rounded 2 (count s + increment (props s))) (increment (props s)) (count s).
    intros r u v H2 Hi. qc. lra. }
  rewrite decide_False in Hu.
  2:{ apply Qclt_not_le. clear - Hlt Hc. revert Hlt Hc.
      generalize (rounded 2 (count s + increment (props s))) (end_ (props s)) (count s).
      intros r u v Hlt Hc. qc. lra. }
  rewrite <- Hu. split; [done|]. split; [|split; [|by rewrite <- Hp']].
  - clear - H1. revert H1.
    generalize (rounded 2 (count s + increment (props s))) (increment (props s)) (count s).
    intros r u v H1. qc. lra.
  - clear - H2. revert H2.
    generalize (rounded 2 (count s + increment (props s))) (increment (props s)) (count s).
    intros r u v H2. qc. lra.
Qed.

Lemma X10_descending_overshoots_witness :
  exists s', step (Tick 1) sampleBelow = Some s' ∧ this (count s') = (-1 # 1)%Q.
Proof.
  assert (Hl : intervals sampleBelow !! 1%nat = Some (timerOf (props sampleBelow)))
    by (vm_compute; reflexivity).
  assert (H1 : increment (props sampleBelow) ≤ - Q2Qc (1 # 100))
    by (vm_compute; discriminate).
  assert (H2 : count sampleBelow ≤ end_ (props sampleBelow))
    by (vm_compute; discriminate).
  assert (H3 : within (10 ^ 9) (start (props sampleBelow)))
    by (split; vm_compute; discriminate).
  assert (H4 : within (10 ^ 9) (end_ (props sampleBelow)))
    by (split; vm_compute; discriminate).
  assert (H5 : within (10 ^ 9) (count sampleBelow))
    by (split; vm_compute; discriminate).
  destruct (X10_descending_overshoots sampleBelow 1%nat _ sampleBelow_reachable
              Hl H1 H2 H3 H4 H5) as (s' & j & Hs & _ & _ & _ & _).
  assert (He : exists t, step (Tick 1) sampleBelow = Some t
                 ∧ this (count t) = (-1 # 1)%Q).
  { eexists. split; [vm_compute; reflexivity|]. vm_compute. reflexivity. }
  destruct He as (t & Ht & Hct). rewrite Hs in Ht. injection Ht as <-.
  exists s'. split; [exact Hs|exact Hct].
Defined.

(** X11: while the component is not visible and either [startOnViewport]
    is set or [start = end], no interval is registered and a tick changes
    nothing. *)
Theorem X11_hidden_counter_ignores_ticks s i :
  reachable s -> isVisible s = false ->
  startOnViewport (props s) = true ∨ start (props s) = end_ (props s) ->
  step (Tick i) s = Some s ∧ intervals s = ∅.
Proof.
  intros Hr Hv Hc. pose proof (reachable_owned s Hr) as Ho.
  assert (Hg : gate (props s) (isVisible s) = false).
  { unfold gate. rewrite Hv. destruct Hc as [-> | Hc]; [done|].
    rewrite (bool_decide_eq_false_2 (start (props s) ≠ end_ (props s))) by tauto.
    by rewrite andb_false_r. }
  assert (He : intervals s = ∅).
  { unfold owned in Ho. destruct (cleanup s); [|tauto].
    destruct Ho as (_ & _ & _ & Ho). congruence. }
  split; [|done]. cbn [step]. by rewrite He, lookup_empty.
Qed.

Lemma X11_hidden_counter_ignores_ticks_witness :
  step (Tick 2) sampleC6 = Some sampleC6 ∧ intervals sampleC6 = ∅.
Proof.
  apply (X11_hidden_counter_ignores_ticks sampleC6 2%nat sampleC6_reachable eq_refl).
  left. reflexivity.
Defined.

(** X12: a step changes [count] in two ways only: a tick of the registered
    interval applies the updater of the current props, and a change of
    visibility to visible or a render, with [restartOnViewport] set and the
    component visible, stores [start]. *)
Theorem X12_count_changes s e s' :
  reachable s -> step e s = Some s' ->
  count s' = count s
  ∨ (exists i, e = Tick i ∧ intervals s !! i = Some (timerOf (props s))
       ∧ updateCount (start (props s)) (end_ (props s)) (duration (props s))
           (count s) = Some (count s'))
  ∨ (restartOnViewport (props s') = true ∧ isVisible s' = true
     ∧ count s' = start (props s')
     ∧ (e = Intersect true ∨ exists p, e = Render p)).
Proof.
  intros Hr Hs. pose proof (reachable_owned s Hr) as Ho.
  destruct (mounted s) eqn:Hm.
  2:{ rewrite step_unmounted in Hs by done. injection Hs as <-. by left. }
  destruct e as [i|b|p|].
  - destruct (tick_cases _ _ _ Ho Hs) as (_ & _ & _ & _ & [[_ ->]|[Hl Hu]]);
      [by left|]. right. left. by exists i.
  - destruct (step_intersect _ _ _ Ho Hm Hs) as (_ & _ & Hp & Hsame & Hdiff).
    destruct (decide (b = isVisible s)) as [Hb|Hb]; [left; by rewrite Hsame|].
    destruct (Hdiff Hb) as (Hv & Hc & _). unfold restartValue in Hc.
    cbn [andb props isVisible withVisible count] in Hc.
    destruct (restartOnViewport (props s)) eqn:Hro; [|by left].
    destruct b; [|by left]. right. right. rewrite Hp. auto.
  - destruct (step_render _ _ _ Ho Hm Hs) as (_ & _ & Hp & Hv & Hc).
    unfold restartValue in Hc. cbn [props isVisible withProps count] in Hc.
    destruct (_ && _) eqn:Hb; [|by left].
    apply andb_true_iff in Hb as [Hb Hb3]. apply andb_true_iff in Hb as [_ Hb2].
    right. right. rewrite Hp, Hv. eauto 10.
  - apply (step_mounted _ _ _ Ho Hm) in Hs. lazy beta iota in Hs. left. tauto.
Qed.

Lemma X12_count_changes_witness :
  exists s', step (Intersect true) sampleC6 = Some s'
    ∧ this (count sampleC6) = (2 # 1)%Q ∧ this (count s') = (0 # 1)%Q
    ∧ restartOnViewport (props s') = true ∧ isVisible s' = true.
Proof.
  assert (Hs : exists s', step (Intersect true) sampleC6 = Some s'
                 ∧ this (count s') = (0 # 1)%Q).
  { eexists. split; [vm_compute; reflexivity|]. vm_compute. reflexivity. }
  destruct Hs as (s' & Hs & Hc).
  exists s'. split; [exact Hs|]. split; [vm_compute; reflexivity|].
  split; [exact Hc|].
  destruct (X12_count_changes sampleC6 (Intersect true) s' sampleC6_reachable Hs)
    as [H|[(i & H & _)|(H1 & H2 & _)]].
  - rewrite H in Hc. vm_compute in Hc. discriminate Hc.
  - discriminate H.
  - split; [exact H1|exact H2].
Defined.

(** X13: a render whose props agree with the current ones on the
    dependencies of the timer effect and of the restart effect changes the
    props only: [count], the registered interval and its id are kept. *)
Theorem X13_restyle_keeps_timer s p :
  reachable s -> mounted s = true ->
  timerDeps p (count s) (isVisible s) = timerDeps (props s) (count s) (isVisible s) ->
  restartDeps p (isVisible s) = restartDeps (props s) (isVisible s) ->
  step (Render p) s = Some (withProps p s).
Proof.
  intros Hr Hm Ht Hre. cbn [step]. rewrite Hm, updateLimit_eq.
  rewrite (bool_decide_eq_false_2 (timerDeps p _ _ ≠ _)) by (by intros H; apply H).
  rewrite (bool_decide_eq_false_2 (restartDeps p _ ≠ _)) by (by intros H; apply H).
  by apply commit_same.
Qed.

Lemma X13_restyle_keeps_timer_witness :
  step (Render (withFormat period integer (props sampleC7))) sampleC7
  = Some (withProps (withFormat period integer (props sampleC7)) sampleC7).
Proof.
  apply (X13_restyle_keeps_timer sampleC7 _ sampleC7_reachable eq_refl); reflexivity.
Defined.

(** X14: [loop] and [incrementType] are dependencies of the timer effect
    that its body does not read: a render that changes one of them only
    clears the registered interval and registers the same timer under a
    fresh id; [count] is kept. *)
Theorem X14_unused_dependency_restarts_interval s i p :
  reachable s -> cleanup s = Some i ->
  start p = start (props s) -> end_ p = end_ (props s) ->
  duration p = duration (props s) ->
  startOnViewport p = startOnViewport (props s) ->
  restartOnViewport p = restartOnViewport (props s) ->
  loop p ≠ loop (props s) ∨ incrementType p ≠ incrementType (props s) ->
  exists s', step (Render p) s = Some s'
    ∧ count s' = count s ∧ isVisible s' = isVisible s
    ∧ cleanup s' = Some (nextId s)
    ∧ intervals s' = {[ nextId s := timerOf (props s) ]}
    ∧ intervals s' !! i = None.
Proof.
  intros Hr Hcl H1 H2 H3 H4 H5 H6. pose proof (reachable_owned s Hr) as Ho.
  unfold owned in Ho. rewrite Hcl in Ho. destruct Ho as (Hi & Hlt & Hm & Hg).
  cbn [step]. rewrite Hm, updateLimit_eq.
  rewrite (bool_decide_eq_true_2 (timerDeps p _ _ ≠ _)).
  2:{ unfold timerDeps. intros [=]. destruct H6; congruence. }
  rewrite (bool_decide_eq_false_2 (restartDeps p _ ≠ _)).
  2:{ unfold restartDeps. rewrite H1, H5. by intros H; apply H. }
  rewrite commit_eq. cbn [restartValue andb withProps count]. 
  unfold restartValue. cbn [andb]. rewrite decide_True by done.
  eexists. split; [done|].
  assert (Hg' : isVisible s || negb (startOnViewport p) && bool_decide (start p ≠ end_ p)
                = true).
  { rewrite H1, H2, H4. exact Hg. }
  unfold refresh, runCleanup, timerEffect.
  cbn [cleanup withProps props isVisible]. rewrite Hcl.
  change (props (withCleanup None (clearInterval i (withProps p s)))) with p.
  change (isVisible (withCleanup None (clearInterval i (withProps p s))))
    with (isVisible s).
  rewrite Hg'.
  cbn [setInterval withCleanup clearInterval withProps fst count isVisible cleanup
       intervals nextId props].
  split; [done|]. split; [done|]. split; [done|].
  assert (Ht : {| callback := {| startVar := start p; endVar := end_ p;
                                 durationVar := duration p |};
                  delay := duration p / Math_max 1 (Math_ceil (duration p / Q2Qc 100)) |}
               = timerOf (props s)).
  { unfold timerOf, totalSteps. by rewrite H1, H2, H3. }
  rewrite Ht, Hi, delete_singleton_eq, insert_empty. split; [done|].
  apply lookup_singleton_ne. lia.
Qed.

Lemma X14_unused_dependency_restarts_interval_witness :
  exists s', step (Render (setLoop true (props sampleC7))) sampleC7 = Some s'
    ∧ cleanup sampleC7 = Some 2%nat ∧ cleanup s' = Some 3%nat.
Proof.
  destruct (X14_unused_dependency_restarts_interval sampleC7 2%nat
              (setLoop true (props sampleC7)) sampleC7_reachable
              eq_refl eq_refl eq_refl eq_refl eq_refl eq_refl)
    as (s' & Hs & _ & _ & Hc & _).
  { left. discriminate. }
  exists s'. split; [exact Hs|]. split; [reflexivity|exact Hc].
Defined.

(** X15: with separator "none" the number span reads back ([parseFloat])
    as [Math.round(count)], for both increment types and below [10^21];
    that number is within 1/2 of [count], ties going up. *)
Theorem X15_displayed_number_reads_back p c :
  decimalSeparatorType p = none -> Qcabs (Math_round c) < limit21 ->
  parseFloat (numberText (render p c)) = Some (Math_round c)
  ∧ c - Q2Qc (1 # 2) < Math_round c ∧ Math_round c ≤ c + Q2Qc (1 # 2).
Proof.
  intros Hsep Hlim. split; [|apply Math_round_close].
  unfold numberText, render. cbn [spans children]. rewrite Hsep. cbn [formatNumber].
  case_decide.
  - rewrite parseFloat_toFixed0 by done. rewrite Math_round_whole.
    by rewrite rounded_whole.
  - rewrite parseFloat_toFixed by done. rewrite Math_round_whole.
    by rewrite rounded_whole.
Qed.

Lemma X15_displayed_number_reads_back_witness :
  option_map this
    (parseFloat (numberText (render (withFormat none decimal defaultProps)
                               (Q2Qc (-2469 # 2)))))
  = Some (-1234 # 1)%Q.
Proof.
  assert (Hlim : Qcabs (Math_round (Q2Qc (-2469 # 2))) < limit21)
    by (vm_compute; reflexivity).
  destruct (X15_displayed_number_reads_back (withFormat none decimal defaultProps)
              (Q2Qc (-2469 # 2)) eq_refl Hlim) as [-> _].
  vm_compute. reflexivity.
Defined.

(** X16: with separator "period" the number span, with its periods turned
    back into commas, is the en-US form of [Math.round(count)]; it holds no
    comma, and the en-US form of the whole number holds no decimal point, so
    every period shown separates thousands. *)
Theorem X16_period_display_round_trip p c :
  decimalSeparatorType p = period ->
  replaceAll "." "," (numberText (render p c)) = toLocaleString (Math_round c)
  ∧ occurs "," (numberText (render p c)) = false
  ∧ occurs "." (toLocaleString (Math_round c)) = false.
Proof.
  intros Hsep.
  assert (H : occurs "." (toLocaleString (Math_round c)) = false).
  { rewrite Math_round_whole, toLocaleString_whole.
    destruct (decide _); [rewrite (occurs_sign _ true) by done
                         |rewrite (occurs_sign _ false) by done];
      rewrite occurs_groupDigits by done; by apply occurs_uint. }
  unfold numberText, render. cbn [spans children]. rewrite Hsep. cbn [formatNumber].
  split; [by apply replaceAll_back|]. split; [by apply occurs_replaceAll|done].
Qed.

Lemma X16_period_display_round_trip_witness :
  numberText (render (withFormat period integer defaultProps) (Q2Qc (24691357 # 20)))
  = "1.234.568"
  ∧ replaceAll "." ","
      (numberText (render (withFormat period integer defaultProps)
                     (Q2Qc (24691357 # 20))))
    = "1,234,568".
Proof.
  destruct (X16_period_display_round_trip (withFormat period integer defaultProps)
              (Q2Qc (24691357 # 20)) eq_refl) as (Hr & _).
  split; [vm_compute; reflexivity|]. rewrite Hr. vm_compute. reflexivity.
Defined.

(** X17: with separator "comma", for a count above 0 or below -1/2 (where
    [Math.round] is not a zero) that rounds to a whole number of magnitude at
    most [2^53], the number span without its commas is the number span of
    the same props with separator "none" and increment type "integer". *)
Theorem X17_comma_display_digits p c :
  decimalSeparatorType p = comma ->
  c < - Q2Qc (1 # 2) ∨ 0 < c ->
  within (2 ^ 53) (Math_round c) ->
  without "," (numberText (render p c))
  = numberText (render (withFormat none integer p) c).
Proof.
  intros Hsep _ Hin.
  assert (Hlim : Qcabs (Math_round c) < limit21).
  { apply (within_limit (2 ^ 53)); [lia|done]. }
  unfold numberText, render. cbn [spans children].
  rewrite Hsep. cbn [formatNumber withFormat decimalSeparatorType incrementType].
  rewrite decide_True by done.
  rewrite Math_round_whole in *. destruct (toFixed_whole _ Hlim) as [-> _].
  rewrite toLocaleString_whole, without_app, without_groupDigits.
  rewrite (without_absent _ (digits _)) by (by apply occurs_uint).
  by destruct (decide _).
Qed.

Lemma X17_comma_display_digits_witness :
  numberText (render (config 0 100 2000 false false) (Q2Qc (24691357 # 20)))
  = "1,234,568"
  ∧ without ","
      (numberText (render (config 0 100 2000 false false) (Q2Qc (24691357 # 20))))
    = "1234568".
Proof.
  assert (Hc : Q2Qc (24691357 # 20) < - Q2Qc (1 # 2) ∨ 0 < Q2Qc (24691357 # 20))
    by (right; vm_compute; reflexivity).
  assert (Hin : within (2 ^ 53) (Math_round (Q2Qc (24691357 # 20)))).
  { split; vm_compute; discriminate. }
  split; [vm_compute; reflexivity|].
  rewrite (X17_comma_display_digits (config 0 100 2000 false false) _ eq_refl Hc Hin).
  vm_compute. reflexivity.
Defined.

(** X18: groups of three digits.  For a whole number [0 <= n <= 2^53] the
    formatter with separator "comma" writes the digits of [n] when
    [n < 1000] (at most three), and otherwise the form of [n / 1000], a
    comma, and the three digits of [n mod 1000]; with separator "period" the
    same with a period. *)
Theorem X18_thousands_groups it (n : N) :
  (n <= 2 ^ 53)%N ->
  let shown sep m := formatNumber sep it (Q2Qc (inject_Z (Z.of_N m))) in
  (if decide (n < 1000)%N
   then shown comma n = digits n ∧ shown period n = digits n
        ∧ (String.length (digits n) ≤ 3)%nat
   else shown comma n = shown comma (n / 1000)%N +:+ "," +:+ fraction 3 (n mod 1000)
        ∧ shown period n
          = shown period (n / 1000)%N +:+ "." +:+ fraction 3 (n mod 1000))
  ∧ String.length (fraction 3 (n mod 1000)) = 3%nat.
Proof.
  intros _ shown.
  assert (Hp : forall m, shown period m = replaceAll "," "." (shown comma m)) by done.
  split.
  2:{ unfold fraction. by rewrite length_string_of_uint, nb_digits_lastDigits. }
  pose proof (comma_thousands it n) as Hc. fold (whole (Z.of_N n)) in Hc.
  case_decide as Hn.
  - split; [done|]. split; [|by apply digits_short].
    rewrite Hp. unfold shown. fold (whole (Z.of_N n)). rewrite Hc.
    apply replaceAll_absent. by apply occurs_uint.
  - split; [done|]. rewrite !Hp. unfold shown. fold (whole (Z.of_N n)).
    rewrite Hc, !replaceAll_app. f_equal. f_equal.
    apply replaceAll_absent. by apply occurs_uint.
Qed.

Lemma X18_thousands_groups_witness :
  formatNumber comma integer (Q2Qc 1234567) = "1,234" +:+ "," +:+ "567"
  ∧ formatNumber period integer (Q2Qc 1234567) = "1.234" +:+ "." +:+ "567".
Proof.
  assert (Hn : (1234567 <= 2 ^ 53)%N) by (vm_compute; discriminate).
  destruct (X18_thousands_groups integer 1234567 Hn) as [H _].
  rewrite decide_False in H by (vm_compute; discriminate).
  destruct H as [Hc Hp]. split.
  - etransitivity; [exact Hc|]. vm_compute. reflexivity.
  - etransitivity; [exact Hp|]. vm_compute. reflexivity.
Defined.

(** X19: with [startOnViewport], a change of visibility keeps the props and
    stores [start] in [count] only when [restartOnViewport] is set and the
    component becomes visible; becoming visible registers the timer of the
    props under a fresh id, becoming hidden leaves no interval. *)
Theorem X19_visibility_pauses_and_resumes s b :
  reachable s -> mounted s = true -> startOnViewport (props s) = true ->
  b ≠ isVisible s ->
  exists s', step (Intersect b) s = Some s'
    ∧ isVisible s' = b ∧ props s' = props s
    ∧ count s' = (if restartOnViewport (props s) && b then start (props s)
                  else count s)
    ∧ (if b
       then exists j, (nextId s ≤ j)%nat ∧ cleanup s' = Some j
                      ∧ intervals s' = {[ j := timerOf (props s) ]}
       else cleanup s' = None ∧ intervals s' = ∅).
Proof.
  intros Hr Hm Hv Hb. pose proof (reachable_owned s Hr) as Ho.
  destruct (step_total (Intersect b) s Ho) as [s' Hs]. exists s'. split; [done|].
  destruct (step_intersect _ _ _ Ho Hm Hs) as (Ho' & Hm' & Hp & _ & Hd).
  destruct (Hd Hb) as (Hvis & Hc & Hfresh).
  split; [done|]. split; [done|]. split; [done|].
  unfold owned, gate in Ho'. rewrite Hp, Hv, Hvis in Ho'.
  cbn [negb andb] in Ho'. rewrite orb_false_r in Ho'.
  destruct (cleanup s') as [j|].
  - destruct Ho' as (Hi & _ & _ & ->). exists j. split; [|done].
    apply Hfresh. rewrite Hi, lookup_singleton_eq. by eexists.
  - destruct Ho' as [Hi Hg]. specialize (Hg Hm'). by rewrite Hg.
Qed.

Lemma X19_visibility_pauses_and_resumes_witness :
  exists s', step (Intersect true) sampleC6 = Some s'
    ∧ cleanup s' = Some 4%nat ∧ this (count s') = (0 # 1)%Q.
Proof.
  assert (Hb : true ≠ isVisible sampleC6) by discriminate.
  destruct (X19_visibility_pauses_and_resumes sampleC6 true sampleC6_reachable
              eq_refl eq_refl Hb) as (s' & Hs & _ & _ & Hc & j & _ & Hj & _).
  exists s'. split; [exact Hs|].
  assert (He : exists t, step (Intersect true) sampleC6 = Some t
                 ∧ cleanup t = Some 4%nat).
  { eexists. split; [vm_compute; reflexivity|]. vm_compute. reflexivity. }
  destruct He as (t & Ht & Hct). rewrite Hs in Ht. injection Ht as <-.
  split; [exact Hct|]. rewrite Hc. vm_compute. reflexivity.
Defined.

(** X20: a negative whole number is shown as a minus sign followed by the
    form of its absolute value, for every separator and increment type
    (below [10^21] for separator "none"). *)
Theorem X20_negative_display sep it (z : Z) :
  (z < 0)%Z ->
  (sep = none -> Qcabs (Q2Qc (inject_Z z)) < limit21) ->
  formatNumber sep it (Q2Qc (inject_Z z))
  = "-" +:+ formatNumber sep it (Q2Qc (inject_Z (- z))).
Proof.
  intros Hz Hlim.
  assert (Ha : Z.abs_N (- z) = Z.abs_N z) by lia.
  destruct sep; cbn [formatNumber].
  - rewrite !toLocaleString_whole, Ha.
    rewrite decide_True by done. by rewrite decide_False by lia.
  - rewrite !toLocaleString_whole, Ha.
    rewrite decide_True by done. by rewrite decide_False by lia.
  - specialize (Hlim eq_refl).
    assert (Hlim' : Qcabs (Q2Qc (inject_Z (- z))) < limit21).
    { destruct (Qcabs_whole z) as [E1 _]. destruct (Qcabs_whole (- z)) as [E2 _].
      rewrite E2. rewrite E1 in Hlim. by rewrite Z.abs_opp. }
    destruct (toFixed_whole z Hlim) as [H0 H1].
    destruct (toFixed_whole (- z) Hlim') as [H0' H1'].
    destruct (decide (it = integer)).
    + rewrite H0, H0', Ha. rewrite decide_True by done. by rewrite decide_False by lia.
    + rewrite H1, H1', Ha. rewrite decide_True by done. by rewrite decide_False by lia.
Qed.

Lemma X20_negative_display_witness :
  formatNumber comma integer (Q2Qc (inject_Z (-1234567))) = "-1,234,567".
Proof.
  assert (Hz : (-1234567 < 0)%Z) by reflexivity.
  assert (Hl : comma = none -> Qcabs (Q2Qc (inject_Z (-1234567))) < limit21)
    by discriminate.
  rewrite (X20_negative_display comma integer (-1234567) Hz Hl). vm_compute. reflexivity.
Defined.
